(** * lrucache: a shallow embedding of salestax-srv/lrucache/lrucache.go

    The Go package keeps a [container/list] doubly linked list of elements
    (front = most recently used) and a map from keys to element pointers.
    Pointers are modelled by addresses into a store of cache items, so that
    the index really holds handles into the list (and not copies of the
    entries), and the agreement of list and index is something to prove. *)

From Stdlib Require Import PrimFloat.
From stdpp Require Import gmap strings list fin_maps.

Local Open Scope Z_scope.

(** ** Values, errors, panics *)

(** Go's [float64].  The cache only stores and returns these values and
    calls [math.NaN()]; no arithmetic is performed on them. *)
Abbreviation float64 := PrimFloat.float (only parsing).

Definition math_NaN : float64 := PrimFloat.nan.
Definition math_IsNaN (f : float64) : bool := PrimFloat.is_nan f.

(** A Go [error] value built by [errors.New]; the nil error is [None] of
    [option error]. *)
Inductive error : Type := errors_New (msg : string).

(** Outcome of a Go call: it returns, or it panics (with the message). *)
Inductive result (A : Type) : Type :=
  | Ok (a : A)
  | Panic (msg : string).
Arguments Ok {A} a.
Arguments Panic {A} msg.

#[global] Instance result_ret : MRet result := λ A a, Ok a.
#[global] Instance result_bind : MBind result := λ A B f m,
  match m with
  | Ok a => f a
  | Panic msg => Panic msg
  end.

(** ** Data model *)

(** [type CacheItem struct { key string; value float64 }] *)
Record CacheItem : Type := mkCacheItem { key : string; value : float64 }.

(** Address of a [*list.Element].  Every element is created by [PushFront]
    with a freshly allocated [*CacheItem] as its [Value], and that field is
    never reassigned, so one address stands for the element and for the item
    it points to. *)
Abbreviation ptr := nat (only parsing).

(** [type LoaderFunc func(string) (float64, error)].  The loader is the
    caller's code; it may have effects of its own, which are threaded
    through a state [W] of the caller's world.  It does not reach into the
    cache. *)
Definition LoaderFunc (W : Type) : Type :=
  string → W → (float64 * option error) * W.

(** [type LRUCache struct { size int; list *list.List;
                            cache map[interface{}]*list.Element;
                            mutex sync.RWMutex }]
    [list] is the sequence of element addresses from front to back, [store]
    is the memory the elements live in (address -> item; an element removed
    from the list keeps its cell, as its [Value] stays readable in Go).
    The mutex is released whenever a call has returned, so it carries no
    state between calls of a single thread and has no field here. *)
Module LRUCache.
Record t : Type := mk {
  size : Z;
  list : Datatypes.list ptr;
  cache : gmap string ptr;
  store : Datatypes.list CacheItem
}.
End LRUCache.
Abbreviation LRUCache := LRUCache.t.

(** ** container/list *)

Module clist.
(** [l.Len()] *)
Definition Len (l : list ptr) : Z := Z.of_nat (length l).

(** [l.Back()]: the last element, or nil. *)
Definition Back (l : list ptr) : option ptr := last l.

(** Unlinks [e]; the list is unchanged when [e] is not one of its
    elements ([e.list != l]). *)
Fixpoint unlink (e : ptr) (l : list ptr) : list ptr :=
  match l with
  | [] => []
  | x :: l' => if decide (x = e) then l' else x :: unlink e l'
  end.

(** [l.Remove(e)] *)
Definition Remove (e : ptr) (l : list ptr) : list ptr := unlink e l.

(** [l.MoveToFront(e)]: nothing happens when [e] is not an element of
    [l]. *)
Definition MoveToFront (e : ptr) (l : list ptr) : list ptr :=
  if decide (e ∈ l) then e :: unlink e l else l.
End clist.

(** ** The cache *)

Definition with_list (c : LRUCache) (l : list ptr) : LRUCache :=
  LRUCache.mk (LRUCache.size c) l (LRUCache.cache c) (LRUCache.store c).
Definition with_cache (c : LRUCache) (m : gmap string ptr) : LRUCache :=
  LRUCache.mk (LRUCache.size c) (LRUCache.list c) m (LRUCache.store c).
Definition with_store (c : LRUCache) (s : list CacheItem) : LRUCache :=
  LRUCache.mk (LRUCache.size c) (LRUCache.list c) (LRUCache.cache c) s.

(** [elem.Value.( *CacheItem)]: reads the item an element points to; the
    type assertion panics when there is none. *)
Definition Value (c : LRUCache) (elem : ptr) : result CacheItem :=
  match LRUCache.store c !! elem with
  | Some item => Ok item
  | None => Panic "interface conversion: interface {} is nil, not *lrucache.CacheItem"
  end.

(** [item.value] read through a [*CacheItem]; it panics on a pointer that
    leads to no item. *)
Definition deref (c : LRUCache) (item : ptr) : result CacheItem :=
  match LRUCache.store c !! item with
  | Some i => Ok i
  | None => Panic "invalid memory address or nil pointer dereference"
  end.

(** [c.list.PushFront(ci)]: allocates the element and links it at the
    front; returns its address. *)
Definition PushFront (ci : CacheItem) (c : LRUCache) : ptr * LRUCache :=
  let e := length (LRUCache.store c) in
  (e, with_list (with_store c (LRUCache.store c ++ [ci])) (e :: LRUCache.list c)).

(** [func New(sz int) *LRUCache].  The [sz+1] of the source is only the
    capacity hint of [make], which has no effect on the map's contents. *)
Definition New (sz : Z) : result LRUCache :=
  if decide (sz ≤ 0) then Panic "LRUCache size too small (<=0)"
  else Ok (LRUCache.mk sz [] ∅ []).

(** [func (c *LRUCache) prune(n int) error]; the loop runs [n] times for
    [n > 0] and not at all otherwise. *)
Fixpoint prune_loop (n : nat) (c : LRUCache) : result (option error * LRUCache) :=
  match n with
  | O => Ok (None, c)
  | S n' =>
    match clist.Back (LRUCache.list c) with
    | None => Ok (None, c)
    | Some elem =>
      let c1 := with_list c (clist.Remove elem (LRUCache.list c)) in
      item ← Value c1 elem;
      let c2 := with_cache c1 (delete (key item) (LRUCache.cache c1)) in
      prune_loop n' c2
    end
  end.

Definition prune (n : Z) (c : LRUCache) : result (option error * LRUCache) :=
  prune_loop (Z.to_nat n) c.

(** [func (c *LRUCache) Get(key string) ( *CacheItem, error)] *)
Definition Get (k : string) (c : LRUCache)
  : result ((option ptr * option error) * LRUCache) :=
  match LRUCache.cache c !! k with
  | Some elem =>
    _ ← Value c elem;
    Ok ((Some elem, None), with_list c (clist.MoveToFront elem (LRUCache.list c)))
  | None => Ok ((None, Some (errors_New "Key not found")), c)
  end.

(** [func (c *LRUCache) Insert(key string, value float64) error] *)
Definition Insert (k : string) (v : float64) (c : LRUCache)
  : result (option error * LRUCache) :=
  match LRUCache.cache c !! k with
  | Some elem =>
    let c1 := with_list c (clist.MoveToFront elem (LRUCache.list c)) in
    item ← Value c1 elem;
    Ok (None, with_store c1 (<[elem := mkCacheItem (key item) v]> (LRUCache.store c1)))
  | None =>
    '(_, c1) ← (if clist.Len (LRUCache.list c) >=? LRUCache.size c
                then prune 1 c else Ok (None, c));
    let ci := mkCacheItem k v in
    let '(e, c2) := PushFront ci c1 in
    Ok (None, with_cache c2 (<[k := e]> (LRUCache.cache c2)))
  end.

(** [func (c *LRUCache) FastRateLookup(key string, loader LoaderFunc)
      (float64, error)].
    The [taxRate, err := loader(key)] of the source declares two new
    variables in the block of [if loader != nil]; they are [taxRate'] and
    [err'] below, and the function's own [taxRate] is not assigned there. *)
Definition FastRateLookup {W : Type} (k : string) (loader : option (LoaderFunc W))
    (s : LRUCache * W) : result ((float64 * option error) * (LRUCache * W)) :=
  let '(c, w) := s in
  let taxRate := math_NaN in
  '((val, err), c) ← Get k c;
  match err, val with
  | None, Some val =>
    item ← deref c val;
    let taxRate := value item in
    Ok ((taxRate, None), (c, w))
  | None, None => Panic "invalid memory address or nil pointer dereference"
  | Some err, _ =>
    match loader with
    | Some loader =>
      let '((taxRate', err'), w) := loader k w in
      match err' with
      | Some _ =>
        Ok ((math_NaN, Some (errors_New "Using provided data acquistion routine")), (c, w))
      | None =>
        '(_, c) ← Insert k taxRate' c;
        match err' with
        | Some _ =>
          Ok ((math_NaN, Some (errors_New "Value insertion into cache failed")), (c, w))
        | None => Ok ((taxRate, None), (c, w))
        end
      end
    | None => Ok ((math_NaN, Some err), (c, w))
    end
  end.

(** A loader for the examples: it returns the given value and error, and
    counts in its world how often it has been called. *)
Definition counting_loader (v : float64) (err : option error) : LoaderFunc nat :=
  λ _ n, ((v, err), S n).

(** Two caches for the examples: a full one of capacity 2 holding "b"
    (most recent) and "a", and one of capacity 3 holding "a" only. *)
Definition cache_ab : LRUCache :=
  LRUCache.mk 2 [1; 0]%nat {[ "a" := 0%nat; "b" := 1%nat ]}
    [mkCacheItem "a" 1%float; mkCacheItem "b" 2%float].
Definition cache_a : LRUCache :=
  LRUCache.mk 3 [0%nat] {[ "a" := 0%nat ]} [mkCacheItem "a" 1%float].

(** ** Driving the cache: sequences of calls *)

Inductive op (W : Type) : Type :=
  | OpInsert (k : string) (v : float64)
  | OpGet (k : string)
  | OpFastRateLookup (k : string) (loader : option (LoaderFunc W)).
Arguments OpInsert {W} k v.
Arguments OpGet {W} k.
Arguments OpFastRateLookup {W} k loader.

Definition run_op {W : Type} (o : op W) (s : LRUCache * W) : result (LRUCache * W) :=
  match o with
  | OpInsert k v => '(_, c) ← Insert k v s.1; Ok (c, s.2)
  | OpGet k => '(_, c) ← Get k s.1; Ok (c, s.2)
  | OpFastRateLookup k loader => '(_, s') ← FastRateLookup k loader s; Ok s'
  end.

Fixpoint run {W : Type} (ops : list (op W)) (s : LRUCache * W) : result (LRUCache * W) :=
  match ops with
  | [] => Ok s
  | o :: ops' => s' ← run_op o s; run ops' s'
  end.

(** Inserting key/value pairs one after the other, with nothing in between. *)
Fixpoint InsertAll (kvs : list (string * float64)) (c : LRUCache) : result LRUCache :=
  match kvs with
  | [] => Ok c
  | (k, v) :: kvs' => '(_, c') ← Insert k v c; InsertAll kvs' c'
  end.

(** The state in which the miss branch of [Insert] ends, from the state
    after its capacity test: the new item pushed to the front and entered in
    the index. *)
Definition pushed (k : string) (v : float64) (c : LRUCache) : LRUCache :=
  let '(e, c2) := PushFront (mkCacheItem k v) c in
  with_cache c2 (<[k := e]> (LRUCache.cache c2)).

(** The cache items made of a list of key/value pairs. *)
Definition items (kvs : list (string * float64)) : list CacheItem :=
  (λ kv, mkCacheItem kv.1 kv.2) <$> kvs.

(** ** Observations *)

(** The entries of the recency list, most recently used first. *)
Definition entries (c : LRUCache) : list CacheItem :=
  omap (λ e, LRUCache.store c !! e) (LRUCache.list c).

(** The value the index leads to for a key, if the key is in the index. *)
Definition cached (c : LRUCache) (k : string) : option float64 :=
  match LRUCache.cache c !! k with
  | Some e =>
    match LRUCache.store c !! e with
    | Some item => Some (value item)
    | None => None
    end
  | None => None
  end.

(** ** The recency ledger of the specification

    Section 4 of the specification describes the cache as a sequence of
    entries, front = most recently used.  These definitions follow its
    words; the code is compared with them below. *)
Module Spec.
Definition find (k : string) (es : list CacheItem) : option CacheItem :=
  head (filter (λ it, key it = k) es).

Definition without (k : string) (es : list CacheItem) : list CacheItem :=
  filter (λ it, key it ≠ k) es.

(** 4.2: a present entry is moved to the front; a miss changes nothing. *)
Definition Lookup (k : string) (es : list CacheItem) : list CacheItem :=
  match find k es with
  | Some it => it :: without k es
  | None => es
  end.

(** 4.3: update in place and promote; or push to the front, after
    evicting the back entry when the ledger is full. *)
Definition Insertion (capacity : Z) (k : string) (v : float64)
    (es : list CacheItem) : list CacheItem :=
  match find k es with
  | Some _ => mkCacheItem k v :: without k es
  | None =>
    mkCacheItem k v ::
      (if Z.of_nat (length es) <? capacity then es else removelast es)
  end.
End Spec.

(** ** Well-formed caches *)

(** List and index describe the same entries: every linked element is the
    one the index gives for its key, and the index has nothing else. *)
Record linked (c : LRUCache) : Prop := {
  linked_NoDup : NoDup (LRUCache.list c);
  linked_elem : ∀ e, e ∈ LRUCache.list c →
    ∃ it, LRUCache.store c !! e = Some it ∧ LRUCache.cache c !! key it = Some e;
  linked_index : ∀ k e, LRUCache.cache c !! k = Some e →
    e ∈ LRUCache.list c ∧ ∃ it, LRUCache.store c !! e = Some it ∧ key it = k;
  linked_size : size (LRUCache.cache c) = length (LRUCache.list c)
}.

Record wf (c : LRUCache) : Prop := {
  wf_linked : linked c;
  wf_pos : 0 < LRUCache.size c;
  wf_cap : clist.Len (LRUCache.list c) ≤ LRUCache.size c
}.

(** ** The demonstration program (package main)

    [strconv.Itoa], [strconv.ParseInt] (its value; the program drops its
    error), the conversion [float64(val)] of an [int64], and the sequence
    of numbers [rand.Intn] draws are not code of this repository: they are
    parameters.  The loader's world is the time slept so far, in
    milliseconds. *)

Definition CACHE_SIZE : Z := 50000.
Definition ATTEMPTS : Z := 10000.

Section demo.
Variable strconv_Itoa : Z → string.
Variable strconv_ParseInt : string → Z.
Variable float64_of_int64 : Z → float64.
(** [rand_Intn i n]: what the [i]-th call of the run, [rand.Intn(n)],
    returns. *)
Variable rand_Intn : nat → Z → Z.

(** [func sales_tax_lookup(key string) (float64, error)].  The constant is
    the binary64 value nearest to 1.238712, as in Go. *)
#[warnings="-inexact-float"] Definition sales_tax_lookup : LoaderFunc Z := λ key slept,
  let val := strconv_ParseInt key in
  let fval := PrimFloat.mul (float64_of_int64 val) 1.238712%float in
  let slept := slept + 10 in
  ((fval, None), slept).

(** The loop of [main], from iteration [i] on, with [n] iterations to go;
    the results of [FastRateLookup] are dropped, as in the source. *)
Fixpoint main_loop (n : nat) (i : nat) (s : LRUCache * Z) : result (LRUCache * Z) :=
  match n with
  | O => Ok s
  | S n' =>
    let strId := rand_Intn i (CACHE_SIZE * 2) in
    let s_ := strconv_Itoa strId in
    '(_, s') ← FastRateLookup s_ (Some sales_tax_lookup) s;
    main_loop n' (S i) s'
  end.

(** [func main()], up to the final [fmt.Println(c)]: the cache it prints
    and the time it has slept. *)
Definition main : result (LRUCache * Z) :=
  c ← New CACHE_SIZE;
  main_loop (Z.to_nat ATTEMPTS) 0 (c, 0).
End demo.

(** ** Lemmas on container/list *)

Section clist_lemmas.
Implicit Types (e x : ptr) (l : list ptr).

Lemma unlink_snoc e l : e ∉ l → clist.unlink e (l ++ [e]) = l.
Proof.
  induction l as [|x l IH]; simpl.
  - by case_decide.
  - intros Hn. apply not_elem_of_cons in Hn as [Hne Hn].
    case_decide; [congruence|]. by rewrite IH.
Qed.

Lemma elem_of_unlink e x l :
  NoDup l → x ∈ clist.unlink e l ↔ x ∈ l ∧ x ≠ e.
Proof.
  induction 1 as [|y l Hy Hnd IH]; simpl.
  - split; [inversion 1|intros [H _]; inversion H].
  - case_decide as Hd; subst.
    + rewrite elem_of_cons. split.
      * intros Hx. split; [by right|]. intros ->. done.
      * intros [[->|Hx] Hne]; done.
    + rewrite !elem_of_cons, IH. split.
      * intros [->|[Hx Hne]]; [by split; [left|]|by split; [right|]].
      * intros [[->|Hx] Hne]; [by left|by right].
Qed.

Lemma length_unlink e l : e ∈ l → S (length (clist.unlink e l)) = length l.
Proof.
  induction l as [|y l IH]; simpl; [inversion 1|].
  intros He. case_decide as Hd; [done|].
  apply elem_of_cons in He as [->|He]; [done|].
  simpl. by rewrite IH.
Qed.

Lemma MoveToFront_elem e l :
  e ∈ l → clist.MoveToFront e l = e :: clist.unlink e l.
Proof. intros He. unfold clist.MoveToFront. by case_decide. Qed.

Lemma unlink_Permutation e l : e ∈ l → e :: clist.unlink e l ≡ₚ l.
Proof.
  induction l as [|y l IH]; simpl; [inversion 1|].
  intros He. case_decide as Hd; [by subst|].
  apply elem_of_cons in He as [->|He]; [done|].
  rewrite Permutation_swap. by rewrite IH.
Qed.

Lemma MoveToFront_Permutation e l : clist.MoveToFront e l ≡ₚ l.
Proof.
  unfold clist.MoveToFront. case_decide as He; [|done].
  by apply unlink_Permutation.
Qed.
End clist_lemmas.

(** ** Reading a list of elements through the store *)

Section through_store.
Variable f : ptr → option CacheItem.
Implicit Types (e x : ptr) (l : list ptr) (it : CacheItem).

Lemma omap_cons y l :
  omap f (y :: l) =
  match f y with Some it => it :: omap f l | None => omap f l end.
Proof. reflexivity. Qed.

Lemma without_omap_id k l :
  (∀ x it, x ∈ l → f x = Some it → key it ≠ k) →
  Spec.without k (omap f l) = omap f l.
Proof.
  unfold Spec.without. induction l as [|y l IH]; intros Hk; [done|].
  assert (Hl : ∀ x it, x ∈ l → f x = Some it → key it ≠ k).
  { intros x it Hx. apply Hk. by right. }
  rewrite omap_cons.
  destruct (f y) as [ity|] eqn:Hy; [|by apply IH].
  rewrite filter_cons_True; [by rewrite IH|].
  apply (Hk y); [by left|done].
Qed.

Lemma find_omap_None k l :
  (∀ x it, x ∈ l → f x = Some it → key it ≠ k) →
  Spec.find k (omap f l) = None.
Proof.
  unfold Spec.find. induction l as [|y l IH]; intros Hk; [done|].
  assert (Hl : ∀ x it, x ∈ l → f x = Some it → key it ≠ k).
  { intros x it Hx. apply Hk. by right. }
  rewrite omap_cons.
  destruct (f y) as [ity|] eqn:Hy; [|by apply IH].
  rewrite filter_cons_False; [by apply IH|].
  intros Hn. by apply (Hk y ity); [left| |].
Qed.

Lemma length_omap_total l :
  (∀ x, x ∈ l → is_Some (f x)) → length (omap f l) = length l.
Proof.
  induction l as [|y l IH]; intros Hs; [done|].
  rewrite omap_cons.
  destruct (Hs y) as [ity Hy]; [by left|]. rewrite Hy. simpl.
  rewrite IH; [done|]. intros x Hx. apply Hs. by right.
Qed.

(** In the next two lemmas [e] is the only element of the list that
    holds the key of its item. *)
Lemma omap_unlink e it l :
  f e = Some it →
  (∀ x it', x ∈ l → f x = Some it' → key it' = key it → x = e) →
  NoDup l →
  omap f (clist.unlink e l) = Spec.without (key it) (omap f l).
Proof.
  intros He. induction l as [|y l IH]; intros Hinj Hnd; [done|].
  apply NoDup_cons in Hnd as [Hy Hnd].
  assert (Hl : ∀ x it', x ∈ l → f x = Some it' → key it' = key it → x = e).
  { intros x it' Hx. apply Hinj. by right. }
  simpl clist.unlink. case_decide as Hd.
  - subst y. rewrite omap_cons, He. unfold Spec.without.
    rewrite filter_cons_False by (intros Hn; by apply Hn).
    symmetry. apply without_omap_id. intros x it' Hx Hfx Hk.
    apply Hy. by rewrite <- (Hl x it' Hx Hfx Hk).
  - rewrite !omap_cons. destruct (f y) as [ity|] eqn:Hfy; [|by apply IH].
    unfold Spec.without. rewrite filter_cons_True.
    + f_equal. by apply IH.
    + intros Hk. apply Hd. by apply (Hinj y ity); [left| |].
Qed.

Lemma find_omap_Some e it l :
  f e = Some it →
  (∀ x it', x ∈ l → f x = Some it' → key it' = key it → x = e) →
  e ∈ l →
  Spec.find (key it) (omap f l) = Some it.
Proof.
  intros He. unfold Spec.find.
  induction l as [|y l IH]; intros Hinj Hin; [inversion Hin|].
  rewrite omap_cons. destruct (decide (y = e)) as [->|Hne].
  - rewrite He. by rewrite filter_cons_True.
  - apply elem_of_cons in Hin as [->|Hin]; [done|].
    assert (Hl : ∀ x it', x ∈ l → f x = Some it' → key it' = key it → x = e).
    { intros x it' Hx. apply Hinj. by right. }
    destruct (f y) as [ity|] eqn:Hfy; [|by apply IH].
    rewrite filter_cons_False; [by apply IH|].
    intros Hk. apply Hne. by apply (Hinj y ity); [left| |].
Qed.
End through_store.

Lemma omap_ext_in (f g : ptr → option CacheItem) (l : list ptr) :
  (∀ x, x ∈ l → f x = g x) → omap f l = omap g l.
Proof.
  induction l as [|y l IH]; intros Hfg; [done|].
  rewrite !omap_cons, (Hfg y) by (by left).
  rewrite IH; [done|]. intros x Hx. apply Hfg. by right.
Qed.

(** ** What the invariant says about lookups *)

Lemma linked_holder c k e x it :
  linked c → LRUCache.cache c !! k = Some e →
  x ∈ LRUCache.list c → LRUCache.store c !! x = Some it → key it = k → x = e.
Proof.
  intros Hl Hk Hx Hs <-.
  destruct (linked_elem c Hl x Hx) as (it' & Hs' & Hc). congruence.
Qed.

Lemma linked_lookup c k e :
  linked c → LRUCache.cache c !! k = Some e →
  ∃ it, LRUCache.store c !! e = Some it ∧ key it = k ∧ e ∈ LRUCache.list c ∧
        Spec.find k (entries c) = Some it.
Proof.
  intros Hl Hk. destruct (linked_index c Hl k e Hk) as (He & it & Hs & Hkey).
  exists it. repeat split; try done. subst k.
  apply (find_omap_Some _ e); [done| |done].
  intros x it' Hx Hs' Hkk. by apply (linked_holder c (key it) e x it').
Qed.

Lemma linked_absent c k :
  linked c → LRUCache.cache c !! k = None →
  ∀ x it, x ∈ LRUCache.list c → LRUCache.store c !! x = Some it → key it ≠ k.
Proof.
  intros Hl Hk x it Hx Hs <-.
  destruct (linked_elem c Hl x Hx) as (it' & Hs' & Hc). congruence.
Qed.

Lemma linked_lookup_None c k :
  linked c → LRUCache.cache c !! k = None → Spec.find k (entries c) = None.
Proof. intros Hl Hk. apply find_omap_None. by apply linked_absent. Qed.

Lemma linked_length c : linked c → length (entries c) = length (LRUCache.list c).
Proof.
  intros Hl. apply length_omap_total. intros x Hx.
  destruct (linked_elem c Hl x Hx) as (it & Hs & _). by exists it.
Qed.

(** The index has a key exactly when the ledger has an entry for it. *)
Lemma linked_cached c k :
  linked c → cached c k = value <$> Spec.find k (entries c).
Proof.
  intros Hl. unfold cached. destruct (LRUCache.cache c !! k) as [e|] eqn:Hk.
  - destruct (linked_lookup c k e Hl Hk) as (it & Hs & _ & _ & Hf).
    by rewrite Hs, Hf.
  - by rewrite linked_lookup_None.
Qed.

(** ** The steps of the operations keep list and index linked *)

(** Promotion of the element of a present key. *)
Lemma linked_promote c k e :
  linked c → LRUCache.cache c !! k = Some e →
  let c' := with_list c (clist.MoveToFront e (LRUCache.list c)) in
  linked c' ∧ LRUCache.list c' = e :: clist.unlink e (LRUCache.list c) ∧
  entries c' = Spec.Lookup k (entries c).
Proof.
  intros Hl Hk c'.
  destruct (linked_lookup c k e Hl Hk) as (it & Hs & Hkey & He & Hf).
  assert (Hp : LRUCache.list c' ≡ₚ LRUCache.list c) by apply MoveToFront_Permutation.
  split; [|split].
  - split.
    + rewrite Hp. apply Hl.
    + intros x Hx. rewrite Hp in Hx. by apply (linked_elem c Hl).
    + intros k' x Hx. rewrite Hp. by apply (linked_index c Hl).
    + rewrite Hp. apply Hl.
  - by apply MoveToFront_elem.
  - unfold entries, Spec.Lookup. fold (entries c). rewrite Hf.
    simpl. rewrite MoveToFront_elem by done. rewrite omap_cons, Hs.
    f_equal. subst k. apply omap_unlink; [done| |apply Hl].
    intros x it' Hx Hs' Hkk. by apply (linked_holder c (key it) e x it').
Qed.

(** Assignment to the [value] field of the element of a present key. *)
Lemma linked_assign c k e v :
  linked c → LRUCache.cache c !! k = Some e →
  let c' := with_store c (<[e := mkCacheItem k v]> (LRUCache.store c)) in
  linked c' ∧
  (∀ x, x ≠ e → LRUCache.store c' !! x = LRUCache.store c !! x) ∧
  LRUCache.store c' !! e = Some (mkCacheItem k v).
Proof.
  intros Hl Hk c'.
  destruct (linked_lookup c k e Hl Hk) as (it & Hs & Hkey & He & Hf).
  assert (Hlt : (e < length (LRUCache.store c))%nat) by by apply lookup_lt_Some in Hs.
  assert (Hse : LRUCache.store c' !! e = Some (mkCacheItem k v)).
  { simpl. by apply list_lookup_insert_eq. }
  assert (Hne : ∀ x, x ≠ e → LRUCache.store c' !! x = LRUCache.store c !! x).
  { intros x Hx. simpl. by apply list_lookup_insert_ne. }
  split; [|by split].
  split; simpl.
  - apply Hl.
  - intros x Hx. destruct (decide (x = e)) as [->|Hxe].
    + exists (mkCacheItem k v). split; [apply Hse|done].
    + destruct (linked_elem c Hl x Hx) as (itx & Hsx & Hcx).
      exists itx. split; [|done]. by rewrite list_lookup_insert_ne.
  - intros k' x Hx. destruct (linked_index c Hl k' x Hx) as (Hin & itx & Hsx & Hkx).
    split; [done|]. destruct (decide (x = e)) as [->|Hxe].
    + exists (mkCacheItem k v). split; [apply Hse|]. simpl. congruence.
    + exists itx. split; [|done]. by rewrite list_lookup_insert_ne.
  - apply Hl.
Qed.

(** One round of the loop of [prune]: the back element leaves the list and
    its key leaves the index. *)
Lemma linked_evict c eb :
  linked c → clist.Back (LRUCache.list c) = Some eb →
  ∃ it, LRUCache.store c !! eb = Some it ∧
    LRUCache.cache c !! key it = Some eb ∧
    let c' := with_cache (with_list c (clist.Remove eb (LRUCache.list c)))
                         (delete (key it) (LRUCache.cache c)) in
    linked c' ∧ S (length (LRUCache.list c')) = length (LRUCache.list c) ∧
    entries c' = removelast (entries c).
Proof.
  intros Hl Hb. apply last_Some in Hb as [l' Hl'].
  assert (Hnd : NoDup (l' ++ [eb])) by (rewrite <- Hl'; apply Hl).
  assert (Heb : eb ∉ l').
  { apply NoDup_app in Hnd as (_ & Hd & _). intros Hin.
    apply (Hd eb Hin). by left. }
  assert (Hin : eb ∈ LRUCache.list c).
  { rewrite Hl'. apply elem_of_app. right. by left. }
  destruct (linked_elem c Hl eb Hin) as (it & Hs & Hc).
  exists it. split; [done|]. split; [done|]. intros c'.
  assert (Hlist : LRUCache.list c' = l').
  { simpl. unfold clist.Remove. rewrite Hl'. by apply unlink_snoc. }
  assert (Hsub : ∀ x, x ∈ l' → x ∈ LRUCache.list c ∧ x ≠ eb).
  { intros x Hx. split; [rewrite Hl'; apply elem_of_app; by left|].
    intros ->. done. }
  split; [|split].
  - split.
    + rewrite Hlist. by apply NoDup_app in Hnd as (? & _ & _).
    + intros x Hx. rewrite Hlist in Hx. destruct (Hsub x Hx) as [Hxl Hne].
      destruct (linked_elem c Hl x Hxl) as (itx & Hsx & Hcx).
      exists itx. split; [done|]. simpl. rewrite lookup_delete_ne; [done|].
      intros Hk. rewrite <- Hk in Hcx. congruence.
    + intros k x Hx. simpl in Hx. apply lookup_delete_Some in Hx as [Hk Hx].
      destruct (linked_index c Hl k x Hx) as (Hxl & itx & Hsx & Hkx).
      split; [|by exists itx]. rewrite Hlist. rewrite Hl' in Hxl.
      apply elem_of_app in Hxl as [Hxl|Hxl]; [done|].
      apply list_elem_of_singleton in Hxl. subst x. congruence.
    + rewrite Hlist. simpl. rewrite map_size_delete_Some by done.
      rewrite (linked_size c Hl), Hl', length_app. simpl. lia.
  - rewrite Hlist, Hl', length_app. simpl. lia.
  - unfold entries. rewrite Hlist, Hl'. simpl LRUCache.store.
    rewrite omap_app. rewrite (omap_cons _ eb []), Hs. simpl omap.
    by rewrite removelast_last.
Qed.

(** [PushFront] of a new item followed by its registration in the index. *)
Lemma linked_push c k v :
  linked c → LRUCache.cache c !! k = None →
  linked (pushed k v c) ∧
  length (LRUCache.list (pushed k v c)) = S (length (LRUCache.list c)) ∧
  entries (pushed k v c) = mkCacheItem k v :: entries c ∧
  LRUCache.size (pushed k v c) = LRUCache.size c.
Proof.
  intros Hl Hk.
  set (e := length (LRUCache.store c)).
  change (pushed k v c) with
    (LRUCache.mk (LRUCache.size c) (e :: LRUCache.list c)
       (<[k := e]> (LRUCache.cache c)) (LRUCache.store c ++ [mkCacheItem k v])).
  set (c' := LRUCache.mk _ _ _ _).
  assert (Hold : ∀ x, x ∈ LRUCache.list c →
            x ≠ e ∧ LRUCache.store c' !! x = LRUCache.store c !! x).
  { intros x Hx. destruct (linked_elem c Hl x Hx) as (itx & Hsx & _).
    apply lookup_lt_Some in Hsx as Hlt. split.
    - unfold e. simpl. lia.
    - simpl. by apply lookup_app_l. }
  assert (Hnew : LRUCache.store c' !! e = Some (mkCacheItem k v)).
  { simpl. by apply list_lookup_middle. }
  split; [|split; [done|split; [|done]]].
  - split.
    + simpl. apply NoDup_cons. split; [|apply Hl].
      intros Hin. by destruct (Hold _ Hin).
    + intros x Hx. simpl in Hx. apply elem_of_cons in Hx as [->|Hx].
      * exists (mkCacheItem k v). split; [done|]. simpl. apply lookup_insert_eq.
      * destruct (linked_elem c Hl x Hx) as (itx & Hsx & Hcx).
        destruct (Hold x Hx) as [Hne Hst].
        exists itx. split; [by rewrite Hst|].
        simpl. rewrite lookup_insert_ne; [done|]. intros Hkk. congruence.
    + intros k' x Hx. simpl in Hx. apply lookup_insert_Some in Hx as [[<- <-]|[Hne Hx]].
      * split; [by left|]. by exists (mkCacheItem k v).
      * destruct (linked_index c Hl k' x Hx) as (Hxl & itx & Hsx & Hkx).
        split; [by right|]. exists itx. split; [|done].
        destruct (Hold x Hxl) as [_ Hst]. by rewrite Hst.
    + simpl. rewrite map_size_insert_None by done. by rewrite (linked_size c Hl).
  - unfold entries. change (LRUCache.list c') with (e :: LRUCache.list c).
    rewrite omap_cons, Hnew. f_equal. apply omap_ext_in.
    intros x Hx. by destruct (Hold x Hx).
Qed.

(** ** The operations on well-formed caches *)

Lemma Value_Some c e it : LRUCache.store c !! e = Some it → Value c e = Ok it.
Proof. intros H. unfold Value. by rewrite H. Qed.

Lemma deref_Some c e it : LRUCache.store c !! e = Some it → deref c e = Ok it.
Proof. intros H. unfold deref. by rewrite H. Qed.

Lemma Get_miss c k :
  LRUCache.cache c !! k = None →
  Get k c = Ok ((None, Some (errors_New "Key not found")), c).
Proof. intros H. unfold Get. by rewrite H. Qed.

Lemma Get_hit c k e it :
  LRUCache.cache c !! k = Some e → LRUCache.store c !! e = Some it →
  Get k c = Ok ((Some e, None),
                with_list c (clist.MoveToFront e (LRUCache.list c))).
Proof. intros Hk Hs. unfold Get. by rewrite Hk, (Value_Some c e it). Qed.

Lemma prune_one c :
  linked c → LRUCache.list c ≠ [] →
  ∃ c', prune 1 c = Ok (None, c') ∧ linked c' ∧
    S (length (LRUCache.list c')) = length (LRUCache.list c) ∧
    entries c' = removelast (entries c) ∧
    LRUCache.size c' = LRUCache.size c ∧
    (∀ k, LRUCache.cache c !! k = None → LRUCache.cache c' !! k = None).
Proof.
  intros Hl Hne.
  destruct (clist.Back (LRUCache.list c)) as [eb|] eqn:Hb;
    [|by apply last_None in Hb].
  destruct (linked_evict c eb Hl Hb) as (it & Hs & Hc & Hl' & Hlen & Hent).
  eexists. split; [|split; [exact Hl'|split; [exact Hlen|split; [exact Hent|]]]].
  - unfold prune. change (Z.to_nat 1) with 1%nat. cbn [prune_loop].
    rewrite Hb. rewrite (Value_Some _ eb it) by done. reflexivity.
  - split; [done|]. intros k Hk. simpl. apply lookup_delete_None. by right.
Qed.

Lemma Insert_hit c k e v :
  linked c → LRUCache.cache c !! k = Some e →
  Insert k v c =
    Ok (None, LRUCache.mk (LRUCache.size c) (e :: clist.unlink e (LRUCache.list c))
                (LRUCache.cache c) (<[e := mkCacheItem k v]> (LRUCache.store c))).
Proof.
  intros Hl Hk.
  destruct (linked_lookup c k e Hl Hk) as (it & Hs & Hkey & He & _).
  unfold Insert. rewrite Hk. rewrite (Value_Some _ e it) by done.
  simpl. unfold with_store. simpl. rewrite MoveToFront_elem by done.
  by rewrite Hkey.
Qed.

Lemma Insert_hit_refines c k e v :
  linked c → LRUCache.cache c !! k = Some e →
  let c' := LRUCache.mk (LRUCache.size c) (e :: clist.unlink e (LRUCache.list c))
              (LRUCache.cache c) (<[e := mkCacheItem k v]> (LRUCache.store c)) in
  linked c' ∧ length (LRUCache.list c') = length (LRUCache.list c) ∧
  entries c' = Spec.Insertion (LRUCache.size c) k v (entries c).
Proof.
  intros Hl Hk c'.
  destruct (linked_lookup c k e Hl Hk) as (it & Hs & Hkey & He & Hf).
  destruct (linked_promote c k e Hl Hk) as (Hl1 & Hlist1 & Hent1).
  set (c1 := with_list c (clist.MoveToFront e (LRUCache.list c))) in *.
  destruct (linked_assign c1 k e v Hl1 Hk) as (Hl2 & Hother & Hnew).
  assert (Hc' : c' = with_store c1 (<[e := mkCacheItem k v]> (LRUCache.store c1))).
  { unfold c', with_store. simpl. by rewrite MoveToFront_elem. }
  split; [by rewrite Hc'|]. split.
  - simpl. by rewrite length_unlink.
  - unfold Spec.Insertion. rewrite Hf. unfold entries. simpl LRUCache.list.
    rewrite omap_cons. rewrite Hc', Hnew. f_equal.
    rewrite <- Hc'. simpl LRUCache.store.
    transitivity (omap (λ x, LRUCache.store c !! x) (clist.unlink e (LRUCache.list c))).
    + apply omap_ext_in. intros x Hx.
      apply elem_of_unlink in Hx as [_ Hne]; [|apply Hl].
      by apply list_lookup_insert_ne.
    + subst k. apply omap_unlink; [done| |apply Hl].
      intros x it' Hx Hs' Hkk. by apply (linked_holder c (key it) e x it').
Qed.

Lemma Insert_miss_refines c k v :
  wf c → LRUCache.cache c !! k = None →
  ∃ c', Insert k v c = Ok (None, c') ∧ wf c' ∧
    LRUCache.size c' = LRUCache.size c ∧
    entries c' = Spec.Insertion (LRUCache.size c) k v (entries c).
Proof.
  intros [Hl Hpos Hcap] Hk. unfold clist.Len in Hcap.
  assert (Hf := linked_lookup_None c k Hl Hk).
  unfold Insert, Spec.Insertion. rewrite Hk, Hf, (linked_length c Hl).
  unfold clist.Len.
  destruct (Z.geb_spec (Z.of_nat (length (LRUCache.list c))) (LRUCache.size c))
    as [Hfull|Hroom].
  - destruct (Z.ltb_spec (Z.of_nat (length (LRUCache.list c))) (LRUCache.size c));
      [lia|].
    assert (Hne : LRUCache.list c ≠ []).
    { intros Hnil. rewrite Hnil in Hfull. simpl in Hfull. lia. }
    destruct (prune_one c Hl Hne) as (c1 & Hp & Hl1 & Hlen1 & Hent1 & Hsz1 & Hk1).
    rewrite Hp. simpl.
    destruct (linked_push c1 k v Hl1 (Hk1 k Hk)) as (Hl2 & Hlen2 & Hent2 & Hsz2).
    exists (pushed k v c1). split; [reflexivity|]. split; [|split].
    + split; [exact Hl2| |].
      * rewrite Hsz2, Hsz1. done.
      * unfold clist.Len. rewrite Hlen2, Hsz2, Hsz1. lia.
    + by rewrite Hsz2.
    + by rewrite Hent2, Hent1.
  - destruct (Z.ltb_spec (Z.of_nat (length (LRUCache.list c))) (LRUCache.size c));
      [|lia].
    simpl.
    destruct (linked_push c k v Hl Hk) as (Hl2 & Hlen2 & Hent2 & Hsz2).
    exists (pushed k v c). split; [reflexivity|]. split; [|split].
    + split; [exact Hl2| |].
      * by rewrite Hsz2.
      * unfold clist.Len. rewrite Hlen2, Hsz2. lia.
    + done.
    + done.
Qed.

(** [Insert] returns on every well-formed cache, and acts on the entries
    as section 4.3 says. *)
Lemma Insert_refines c k v :
  wf c →
  ∃ c', Insert k v c = Ok (None, c') ∧ wf c' ∧
    LRUCache.size c' = LRUCache.size c ∧
    entries c' = Spec.Insertion (LRUCache.size c) k v (entries c).
Proof.
  intros Hwf. destruct (LRUCache.cache c !! k) as [e|] eqn:Hk;
    [|by apply Insert_miss_refines].
  destruct Hwf as [Hl Hpos Hcap].
  destruct (Insert_hit_refines c k e v Hl Hk) as (Hl' & Hlen & Hent).
  eexists. split; [by apply Insert_hit|]. split; [|by split].
  split; [done|done|]. unfold clist.Len in *. by rewrite Hlen.
Qed.

(** [Get] returns on every well-formed cache, and acts on the entries as
    section 4.2 says. *)
Lemma Get_refines c k :
  wf c →
  ∃ r c', Get k c = Ok (r, c') ∧ wf c' ∧
    LRUCache.size c' = LRUCache.size c ∧
    LRUCache.cache c' = LRUCache.cache c ∧
    LRUCache.store c' = LRUCache.store c ∧
    entries c' = Spec.Lookup k (entries c) ∧
    r = match LRUCache.cache c !! k with
        | Some e => (Some e, None)
        | None => (None, Some (errors_New "Key not found"))
        end.
Proof.
  intros [Hl Hpos Hcap]. destruct (LRUCache.cache c !! k) as [e|] eqn:Hk.
  - destruct (linked_lookup c k e Hl Hk) as (it & Hs & Hkey & He & Hf).
    destruct (linked_promote c k e Hl Hk) as (Hl1 & Hlist1 & Hent1).
    eexists _, _. split; [by apply (Get_hit c k e it)|].
    split; [|done]. split; [done|done|].
    unfold clist.Len in *. rewrite Hlist1. simpl length.
    by rewrite length_unlink.
  - eexists _, _. split; [by apply Get_miss|].
    split; [done|]. repeat split; try done.
    unfold Spec.Lookup. by rewrite linked_lookup_None.
Qed.

(** ** The four ways through [FastRateLookup] *)

Section FastRateLookup_paths.
Context {W : Type}.
Implicit Types (loader : LoaderFunc W) (w : W).

Lemma FastRateLookup_hit c k e it (loader : option (LoaderFunc W)) w :
  LRUCache.cache c !! k = Some e → LRUCache.store c !! e = Some it →
  FastRateLookup k loader (c, w) =
    Ok ((value it, None),
        (with_list c (clist.MoveToFront e (LRUCache.list c)), w)).
Proof.
  intros Hk Hs. unfold FastRateLookup. rewrite (Get_hit c k e it) by done.
  cbn [mbind result_bind]. by rewrite (deref_Some _ e it).
Qed.

Lemma FastRateLookup_miss_nil c k w :
  LRUCache.cache c !! k = None →
  FastRateLookup (W:=W) k None (c, w) =
    Ok ((math_NaN, Some (errors_New "Key not found")), (c, w)).
Proof. intros Hk. unfold FastRateLookup. by rewrite Get_miss. Qed.

Lemma FastRateLookup_miss_fail c k loader w v err w' :
  LRUCache.cache c !! k = None → loader k w = ((v, Some err), w') →
  FastRateLookup k (Some loader) (c, w) =
    Ok ((math_NaN, Some (errors_New "Using provided data acquistion routine")),
        (c, w')).
Proof.
  intros Hk Hload. unfold FastRateLookup. rewrite Get_miss by done.
  cbn [mbind result_bind]. by rewrite Hload.
Qed.

Lemma FastRateLookup_miss_load c k loader w v w' :
  LRUCache.cache c !! k = None → loader k w = ((v, None), w') →
  FastRateLookup k (Some loader) (c, w) =
    '(_, c') ← Insert k v c; Ok ((math_NaN, None), (c', w')).
Proof.
  intros Hk Hload. unfold FastRateLookup. rewrite Get_miss by done.
  cbn [mbind result_bind]. rewrite Hload.
  by destruct (Insert k v c) as [[? ?]|].
Qed.
End FastRateLookup_paths.

(** ** Every call on a well-formed cache returns a well-formed cache *)

Lemma wf_New sz :
  0 < sz → New sz = Ok (LRUCache.mk sz [] ∅ []) ∧ wf (LRUCache.mk sz [] ∅ []).
Proof.
  intros Hsz. split.
  - unfold New. case_decide; [lia|done].
  - split; [split| |]; simpl; try done.
    + constructor.
    + intros e He. inversion He.
    + unfold clist.Len. simpl. lia.
Qed.

Lemma wf_FastRateLookup {W} c k (loader : option (LoaderFunc W)) (w : W) :
  wf c →
  ∃ r c' w', FastRateLookup k loader (c, w) = Ok (r, (c', w')) ∧ wf c' ∧
    LRUCache.size c' = LRUCache.size c.
Proof.
  intros Hwf. destruct (LRUCache.cache c !! k) as [e|] eqn:Hk.
  - destruct (linked_lookup c k e (wf_linked c Hwf) Hk) as (it & Hs & _).
    destruct (Get_refines c k Hwf) as (r & c' & Hget & Hwf' & Hsz & _).
    rewrite (Get_hit c k e it) in Hget by done. injection Hget as _ <-.
    eexists _, _, _. split; [by apply (FastRateLookup_hit c k e it)|done].
  - destruct loader as [loader|].
    + destruct (loader k w) as [[v [err|]] w'] eqn:Hload.
      * eexists _, _, _. split; [by eapply FastRateLookup_miss_fail|done].
      * destruct (Insert_refines c k v Hwf) as (c' & Hins & Hwf' & Hsz & _).
        eexists _, _, _. split; [|done].
        rewrite (FastRateLookup_miss_load c k loader w v w') by done.
        by rewrite Hins.
    + eexists _, _, _. split; [by apply FastRateLookup_miss_nil|done].
Qed.

Lemma wf_run_op {W} (o : op W) c (w : W) :
  wf c →
  ∃ c' w', run_op o (c, w) = Ok (c', w') ∧ wf c' ∧
    LRUCache.size c' = LRUCache.size c.
Proof.
  intros Hwf. destruct o as [k v|k|k loader]; unfold run_op; cbn [fst snd].
  - destruct (Insert_refines c k v Hwf) as (c' & -> & Hwf' & Hsz & _).
    by eexists _, _.
  - destruct (Get_refines c k Hwf) as (r & c' & -> & Hwf' & Hsz & _).
    by eexists _, _.
  - destruct (wf_FastRateLookup c k loader w Hwf) as (r & c' & w' & -> & Hwf' & Hsz).
    by eexists _, _.
Qed.

Lemma wf_run {W} (ops : list (op W)) c (w : W) :
  wf c →
  ∃ c' w', run ops (c, w) = Ok (c', w') ∧ wf c' ∧
    LRUCache.size c' = LRUCache.size c.
Proof.
  revert c w. induction ops as [|o ops IH]; intros c w Hwf; simpl.
  - by eexists _, _.
  - destruct (wf_run_op o c w Hwf) as (c1 & w1 & -> & Hwf1 & Hsz1).
    destruct (IH c1 w1 Hwf1) as (c' & w' & Hrun & Hwf' & Hsz').
    exists c', w'. cbn [mbind result_bind]. split; [done|]. split; [done|congruence].
Qed.

Lemma wf_reached {W} sz (ops : list (op W)) (w : W) c0 c' w' :
  0 < sz → New sz = Ok c0 → run ops (c0, w) = Ok (c', w') → wf c'.
Proof.
  intros Hsz Hnew Hrun. destruct (wf_New sz Hsz) as [Hnew' Hwf0].
  rewrite Hnew in Hnew'. injection Hnew' as ->.
  destruct (wf_run ops _ w Hwf0) as (c'' & w'' & Hrun' & Hwf' & _).
  rewrite Hrun in Hrun'. by injection Hrun' as -> _.
Qed.

(** ** Inserting distinct keys in a row *)

Lemma key_items kvs : key <$> items kvs = kvs.*1.
Proof.
  unfold items. induction kvs as [|[k v] kvs IH]; [done|].
  by rewrite !fmap_cons, IH.
Qed.

Lemma find_unique es it :
  NoDup (key <$> es) → it ∈ es → Spec.find (key it) es = Some it.
Proof.
  unfold Spec.find. induction es as [|x es IH]; intros Hnd Hin; [inversion Hin|].
  rewrite fmap_cons in Hnd. apply NoDup_cons in Hnd as [Hx Hnd].
  apply elem_of_cons in Hin as [->|Hin].
  - by rewrite filter_cons_True.
  - rewrite filter_cons_False; [by apply IH|].
    intros Hk. apply Hx. rewrite Hk. by apply list_elem_of_fmap_2.
Qed.

Lemma find_absent es k : k ∉ key <$> es → Spec.find k es = None.
Proof.
  unfold Spec.find. induction es as [|x es IH]; intros Hk; [done|].
  rewrite fmap_cons in Hk. apply not_elem_of_cons in Hk as [Hne Hk].
  rewrite filter_cons_False by (intros Heq; by apply Hne). by apply IH.
Qed.

Lemma InsertAll_app kvs1 kvs2 c :
  InsertAll (kvs1 ++ kvs2) c = c1 ← InsertAll kvs1 c; InsertAll kvs2 c1.
Proof.
  revert c. induction kvs1 as [|[k v] kvs1 IH]; intros c; [done|].
  simpl. destruct (Insert k v c) as [[err c1]|msg]; [|done].
  cbn [mbind result_bind]. apply IH.
Qed.

(** A key that none of the front entries holds goes in front of them, and
    as long as the front part is shorter than the capacity it stays whole:
    what leaves the ledger leaves it behind the front part. *)
Lemma spec_Insert_front capacity k v fr r :
  (∀ it, it ∈ fr → key it ≠ k) → Z.of_nat (length fr) < capacity →
  ∃ r', Spec.Insertion capacity k v (fr ++ r) = mkCacheItem k v :: fr ++ r'.
Proof.
  intros Hfr Hlen. unfold Spec.Insertion.
  destruct (Spec.find k (fr ++ r)) as [it|].
  - exists (Spec.without k r). f_equal. unfold Spec.without.
    rewrite filter_app. f_equal.
    induction fr as [|x fr IH]; [done|].
    rewrite filter_cons_True by (apply Hfr; by left).
    rewrite IH; [done| |simpl in Hlen; lia].
    intros it' Hit'. apply Hfr. by right.
  - destruct (Z.ltb_spec (Z.of_nat (length (fr ++ r))) capacity) as [Hroom|Hfull].
    + by exists r.
    + exists (removelast r). f_equal. apply removelast_app.
      intros ->. rewrite app_nil_r in Hfull. lia.
Qed.

Lemma InsertAll_prefix kvs : ∀ p c r,
  wf c → NoDup ((p ++ kvs).*1) →
  Z.of_nat (length (p ++ kvs)) ≤ LRUCache.size c →
  entries c = reverse (items p) ++ r →
  ∃ c' r', InsertAll kvs c = Ok c' ∧ wf c' ∧
    LRUCache.size c' = LRUCache.size c ∧
    entries c' = reverse (items (p ++ kvs)) ++ r'.
Proof.
  induction kvs as [|[k v] kvs IH]; intros p c r Hwf Hnd Hlen Hent.
  - exists c, r. by rewrite app_nil_r.
  - destruct (Insert_refines c k v Hwf) as (c1 & Hins & Hwf1 & Hsz1 & Hent1).
    rewrite Hent in Hent1.
    destruct (spec_Insert_front (LRUCache.size c) k v (reverse (items p)) r)
      as [r' Hfront].
    + intros it Hit Hk. rewrite elem_of_reverse in Hit.
      rewrite fmap_app in Hnd. apply NoDup_app in Hnd as (_ & Hdis & _).
      apply (Hdis k).
      * rewrite <- Hk, <- key_items. by apply list_elem_of_fmap_2.
      * simpl. by left.
    + rewrite length_reverse. unfold items. rewrite length_fmap.
      rewrite length_app in Hlen. simpl in Hlen. lia.
    + rewrite Hfront in Hent1.
      destruct (IH (p ++ [(k, v)]) c1 r') as (c' & r'' & Hall & Hwf' & Hsz' & Hent').
      * done.
      * by rewrite <- app_assoc.
      * rewrite <- app_assoc, Hsz1. done.
      * rewrite Hent1. unfold items. by rewrite fmap_snoc, reverse_snoc.
      * exists c', r''. simpl. rewrite Hins. cbn [mbind result_bind].
        rewrite <- app_assoc in Hent'. split; [done|]. split; [done|].
        split; [congruence|done].
Qed.

(** * The claims *)

(** C1 (the code departs from the claim).  On a miss with a loader that
    returns [v] and a nil error, [FastRateLookup] does insert [v] under the
    key, and the loader's world is the one after a single call, but the
    float it returns is the NaN its own [taxRate] was initialised with, not
    [v]: the loaded value went to a second [taxRate], declared by [:=] in
    the inner block. *)
Theorem FastRateLookup_fill_returns_NaN {W} c k (loader : LoaderFunc W) w v w' :
  wf c → LRUCache.cache c !! k = None → loader k w = ((v, None), w') →
  ∃ c', FastRateLookup k (Some loader) (c, w) = Ok ((math_NaN, None), (c', w')) ∧
        cached c' k = Some v ∧
        entries c' = Spec.Insertion (LRUCache.size c) k v (entries c).
Proof.
  intros Hwf Hk Hload.
  destruct (Insert_refines c k v Hwf) as (c' & Hins & Hwf' & Hsz & Hent).
  exists c'. split; [|split; [|done]].
  - rewrite (FastRateLookup_miss_load c k loader w v w') by done.
    by rewrite Hins.
  - rewrite (linked_cached c') by apply Hwf'. rewrite Hent.
    unfold Spec.Insertion, Spec.find.
    destruct (head (filter _ (entries c))); by rewrite filter_cons_True.
Qed.

Lemma FastRateLookup_fill_returns_NaN_witness :
  wf (LRUCache.mk 1 [] ∅ []) ∧
  (LRUCache.mk 1 [] ∅ [] : LRUCache).(LRUCache.cache) !! "a" = None ∧
  counting_loader 1%float None "a" 0%nat = ((1%float, None), 1%nat) ∧
  math_IsNaN 1%float = false ∧
  ∃ c', FastRateLookup "a" (Some (counting_loader 1%float None))
          (LRUCache.mk 1 [] ∅ [], 0%nat) = Ok ((math_NaN, None), (c', 1%nat)) ∧
        cached c' "a" = Some 1%float ∧
        entries c' = Spec.Insertion 1 "a" 1%float [].
Proof.
  split; [apply wf_New; lia|]. split; [reflexivity|]. split; [reflexivity|].
  split; [reflexivity|].
  apply (FastRateLookup_fill_returns_NaN (LRUCache.mk 1 [] ∅ []) "a"
           (counting_loader 1%float None) 0%nat 1%float 1%nat).
  - apply wf_New; lia.
  - reflexivity.
  - reflexivity.
Defined.

(** C2.  After any sequence of [Insert], [Get] and [FastRateLookup] calls
    on a cache built by [New sz], every call has returned, the recency list
    has as many elements as the index has keys, and that number is at most
    [sz]. *)
Theorem list_index_capacity {W} sz (ops : list (op W)) (w : W) :
  0 < sz →
  ∃ c0 c' w', New sz = Ok c0 ∧ run ops (c0, w) = Ok (c', w') ∧
    length (LRUCache.list c') = size (LRUCache.cache c') ∧
    clist.Len (LRUCache.list c') ≤ sz ∧
    Z.of_nat (size (LRUCache.cache c')) ≤ sz.
Proof.
  intros Hsz. destruct (wf_New sz Hsz) as [Hnew Hwf0].
  destruct (wf_run ops _ w Hwf0) as (c' & w' & Hrun & [Hl Hpos Hcap] & Hsize).
  exists (LRUCache.mk sz [] ∅ []), c', w'. simpl in Hsize.
  rewrite Hsize in Hcap. unfold clist.Len in *.
  repeat split; try done.
  - symmetry. apply Hl.
  - by rewrite (linked_size c' Hl).
Qed.

Lemma list_index_capacity_witness :
  0 < 2 ∧
  ∃ c0 c' w', New 2 = Ok c0 ∧
    run [OpInsert "a" 1%float; OpInsert "b" 2%float; OpGet "a";
         OpFastRateLookup "c" (Some (counting_loader 3%float None));
         OpFastRateLookup "d" None] (c0, 0%nat) = Ok (c', w') ∧
    length (LRUCache.list c') = size (LRUCache.cache c') ∧
    clist.Len (LRUCache.list c') ≤ 2 ∧
    Z.of_nat (size (LRUCache.cache c')) ≤ 2.
Proof.
  split; [lia|].
  apply (list_index_capacity 2
           [OpInsert "a" 1%float; OpInsert "b" 2%float; OpGet "a";
            OpFastRateLookup "c" (Some (counting_loader 3%float None));
            OpFastRateLookup "d" None] 0%nat).
  lia.
Defined.

(** C3.  On a well-formed cache of capacity C (such as [New C] gives, or
    any cache reached from it), inserting C+1 pairs with pairwise distinct
    keys, one after the other, succeeds; afterwards the first key is not in
    the index, every later key is in the index and leads to the value that
    was inserted for it, and the ledger holds exactly the later pairs,
    last inserted first. *)
Theorem LRU_evicts_first_inserted c k1 v1 rest :
  wf c → NoDup (k1 :: rest.*1) → Z.of_nat (length rest) = LRUCache.size c →
  ∃ c', InsertAll ((k1, v1) :: rest) c = Ok c' ∧
    LRUCache.cache c' !! k1 = None ∧
    (∀ k v, (k, v) ∈ rest →
       is_Some (LRUCache.cache c' !! k) ∧ cached c' k = Some v) ∧
    entries c' = reverse (items rest).
Proof.
  intros Hwf Hnd Hlen.
  destruct rest as [|kvl rest' _] using rev_ind.
  { destruct Hwf as [_ Hpos _]. simpl in Hlen. lia. }
  destruct kvl as [kl vl].
  rewrite length_app in Hlen. simpl in Hlen.
  destruct (InsertAll_prefix ((k1, v1) :: rest') [] c (entries c))
    as (c1 & r1 & Hall1 & Hwf1 & Hsz1 & Hent1).
  { done. }
  { simpl. rewrite fmap_app in Hnd. simpl in Hnd.
    rewrite app_comm_cons in Hnd. by apply NoDup_app in Hnd as (? & _ & _). }
  { simpl. simpl length. lia. }
  { done. }
  change ([] ++ (k1, v1) :: rest') with ((k1, v1) :: rest') in Hent1.
  assert (Hr1 : r1 = []).
  { destruct Hwf1 as [Hl1 _ Hcap1]. unfold clist.Len in Hcap1.
    rewrite <- (linked_length c1 Hl1), Hent1 in Hcap1.
    rewrite length_app, length_reverse in Hcap1. unfold items in Hcap1.
    rewrite length_fmap in Hcap1. simpl length in Hcap1.
    destruct r1; [done|]. simpl length in Hcap1. lia. }
  subst r1. rewrite app_nil_r in Hent1.
  destruct (Insert_refines c1 kl vl Hwf1) as (c' & Hins & Hwf' & Hsz' & Hent').
  assert (Hkl : kl ∉ (k1 :: rest'.*1)).
  { rewrite fmap_app in Hnd. simpl in Hnd. rewrite app_comm_cons in Hnd.
    apply NoDup_app in Hnd as (_ & Hdis & _). intros Hin.
    apply (Hdis kl Hin). by left. }
  assert (Hfinal : entries c' = reverse (items (rest' ++ [(kl, vl)]))).
  { rewrite Hent', Hent1. unfold Spec.Insertion.
    rewrite find_absent.
    2:{ rewrite fmap_reverse, key_items. intros Hin.
        rewrite elem_of_reverse in Hin. done. }
    rewrite length_reverse. unfold items. rewrite length_fmap. simpl length.
    destruct (Z.ltb_spec (Z.of_nat (S (length rest'))) (LRUCache.size c1)); [lia|].
    rewrite fmap_cons, reverse_cons, removelast_last.
    by rewrite fmap_snoc, reverse_snoc. }
  assert (Hkeys : NoDup (key <$> entries c')).
  { rewrite Hfinal, fmap_reverse, key_items, reverse_Permutation.
    by apply NoDup_cons in Hnd as [_ ?]. }
  exists c'. split; [|split; [|split; [|done]]].
  - change ((k1, v1) :: rest' ++ [(kl, vl)])
      with (((k1, v1) :: rest') ++ [(kl, vl)]).
    rewrite InsertAll_app, Hall1. cbn [mbind result_bind].
    simpl. by rewrite Hins.
  - destruct (LRUCache.cache c' !! k1) as [e|] eqn:Hk1; [|done].
    destruct (linked_lookup c' k1 e (wf_linked c' Hwf') Hk1) as (it & _ & _ & _ & Hf).
    rewrite find_absent in Hf; [done|].
    rewrite Hfinal, fmap_reverse, key_items. intros Hin.
    rewrite elem_of_reverse in Hin. by apply NoDup_cons in Hnd as [? _].
  - intros k v Hkv.
    assert (Hc : cached c' k = Some v).
    { rewrite (linked_cached c') by apply Hwf'.
      change k with (key (mkCacheItem k v)). rewrite find_unique; [done|done|].
      rewrite Hfinal. apply elem_of_reverse. unfold items.
      apply (list_elem_of_fmap_2 (λ kv, mkCacheItem kv.1 kv.2) _ (k, v)). done. }
    split; [|done]. unfold cached in Hc.
    destruct (LRUCache.cache c' !! k); [by eexists|done].
Qed.

Lemma LRU_evicts_first_inserted_witness :
  let c := LRUCache.mk 2 [] ∅ [] in
  wf c ∧ NoDup ("a" :: [("b", 2%float); ("c", 3%float)].*1) ∧
  Z.of_nat (length [("b", 2%float); ("c", 3%float)]) = LRUCache.size c ∧
  ∃ c', InsertAll [("a", 1%float); ("b", 2%float); ("c", 3%float)] c = Ok c' ∧
    LRUCache.cache c' !! "a" = None ∧
    (∀ k v, (k, v) ∈ [("b", 2%float); ("c", 3%float)] →
       is_Some (LRUCache.cache c' !! k) ∧ cached c' k = Some v) ∧
    entries c' = reverse (items [("b", 2%float); ("c", 3%float)]).
Proof.
  intros c.
  assert (Hwf : wf c) by (apply wf_New; lia).
  assert (Hnd : NoDup ("a" :: [("b", 2%float); ("c", 3%float)].*1)).
  { apply (bool_decide_unpack _). vm_compute. reflexivity. }
  split; [exact Hwf|]. split; [exact Hnd|]. split; [reflexivity|].
  apply (LRU_evicts_first_inserted c "a" 1%float
           [("b", 2%float); ("c", 3%float)] Hwf Hnd).
  reflexivity.
Defined.

(** C4.  The scenario with capacity 2.  After [Insert("a",1.0)] and
    [Insert("b",2.0)], [Get("a")] returns the item of "a", whose value is
    1.0, and "a" is the first entry of the list; [Insert("c",3.0)] then
    removes "b" from the index and keeps "a"; after that [Get("b")] returns
    the error "Key not found", [Get("a")] an item with value 1.0 and
    [Get("c")] an item with value 3.0. *)
Theorem scenario_capacity_two :
  let a1 := mkCacheItem "a" 1%float in
  let b2 := mkCacheItem "b" 2%float in
  let c3 := mkCacheItem "c" 3%float in
  let s0 := LRUCache.mk 2 [] ∅ [] in
  let s1 := LRUCache.mk 2 [0%nat] {[ "a" := 0%nat ]} [a1] in
  let s2 := LRUCache.mk 2 [1; 0]%nat {[ "a" := 0%nat; "b" := 1%nat ]} [a1; b2] in
  let s3 := LRUCache.mk 2 [0; 1]%nat {[ "a" := 0%nat; "b" := 1%nat ]} [a1; b2] in
  let s4 := LRUCache.mk 2 [2; 0]%nat {[ "a" := 0%nat; "c" := 2%nat ]} [a1; b2; c3] in
  let s5 := LRUCache.mk 2 [0; 2]%nat {[ "a" := 0%nat; "c" := 2%nat ]} [a1; b2; c3] in
  let s6 := LRUCache.mk 2 [2; 0]%nat {[ "a" := 0%nat; "c" := 2%nat ]} [a1; b2; c3] in
  New 2 = Ok s0 ∧
  Insert "a" 1%float s0 = Ok (None, s1) ∧
  Insert "b" 2%float s1 = Ok (None, s2) ∧
  Get "a" s2 = Ok ((Some 0%nat, None), s3) ∧
  LRUCache.store s3 !! 0%nat = Some a1 ∧
  entries s2 = [b2; a1] ∧ entries s3 = [a1; b2] ∧
  Insert "c" 3%float s3 = Ok (None, s4) ∧
  LRUCache.cache s4 !! "b" = None ∧
  LRUCache.cache s4 !! "a" = Some 0%nat ∧
  entries s4 = [c3; a1] ∧
  Get "b" s4 = Ok ((None, Some (errors_New "Key not found")), s4) ∧
  Get "a" s4 = Ok ((Some 0%nat, None), s5) ∧
  LRUCache.store s5 !! 0%nat = Some a1 ∧
  Get "c" s5 = Ok ((Some 2%nat, None), s6) ∧
  LRUCache.store s6 !! 2%nat = Some c3.
Proof. intros. repeat split; vm_compute; reflexivity. Qed.

(** C5.  [Insert] on a key the index already has returns a nil error and
    keeps the element the index gives for the key: the item of that very
    element now carries the new value, the element is at the front of the
    list, the index is unchanged (so no key was evicted), the list is a
    permutation of the old one, and both sizes are what they were.  On the
    ledger this is: the new entry first, then the other entries in their
    old order. *)
Theorem Insert_present_updates_in_place c k e v :
  wf c → LRUCache.cache c !! k = Some e →
  ∃ c', Insert k v c = Ok (None, c') ∧
    LRUCache.store c' !! e = Some (mkCacheItem k v) ∧
    (∀ x, x ≠ e → LRUCache.store c' !! x = LRUCache.store c !! x) ∧
    LRUCache.list c' = e :: clist.unlink e (LRUCache.list c) ∧
    LRUCache.list c' ≡ₚ LRUCache.list c ∧
    LRUCache.cache c' = LRUCache.cache c ∧
    length (LRUCache.list c') = length (LRUCache.list c) ∧
    size (LRUCache.cache c') = size (LRUCache.cache c) ∧
    cached c' k = Some v ∧
    entries c' = mkCacheItem k v :: Spec.without k (entries c) ∧
    length (entries c') = length (entries c).
Proof.
  intros [Hl Hpos Hcap] Hk.
  destruct (linked_lookup c k e Hl Hk) as (it & Hs & Hkey & He & Hf).
  destruct (Insert_hit_refines c k e v Hl Hk) as (Hl' & Hlen & Hent).
  eexists. split; [by apply Insert_hit|].
  assert (Hlt : (e < length (LRUCache.store c))%nat) by by apply lookup_lt_Some in Hs.
  assert (Hnew : <[e := mkCacheItem k v]> (LRUCache.store c) !! e
                 = Some (mkCacheItem k v)) by by apply list_lookup_insert_eq.
  simpl. repeat split; try done.
  - intros x Hx. by apply list_lookup_insert_ne.
  - by apply unlink_Permutation.
  - unfold cached. simpl. by rewrite Hk, Hnew.
  - unfold Spec.Insertion in Hent. by rewrite Hf in Hent.
  - rewrite !linked_length by done. done.
Qed.

Lemma Insert_present_updates_in_place_witness :
  let c := LRUCache.mk 2 [1; 0]%nat {[ "a" := 0%nat; "b" := 1%nat ]}
             [mkCacheItem "a" 1%float; mkCacheItem "b" 2%float] in
  wf c ∧ LRUCache.cache c !! "a" = Some 0%nat ∧
  ∃ c', Insert "a" 5%float c = Ok (None, c') ∧
    LRUCache.store c' !! 0%nat = Some (mkCacheItem "a" 5%float) ∧
    (∀ x, x ≠ 0%nat → LRUCache.store c' !! x = LRUCache.store c !! x) ∧
    LRUCache.list c' = 0%nat :: clist.unlink 0%nat (LRUCache.list c) ∧
    LRUCache.list c' ≡ₚ LRUCache.list c ∧
    LRUCache.cache c' = LRUCache.cache c ∧
    length (LRUCache.list c') = length (LRUCache.list c) ∧
    size (LRUCache.cache c') = size (LRUCache.cache c) ∧
    cached c' "a" = Some 5%float ∧
    entries c' = mkCacheItem "a" 5%float :: Spec.without "a" (entries c) ∧
    length (entries c') = length (entries c).
Proof.
  intros c.
  assert (Hwf : wf c).
  { apply (wf_reached (W:=unit) 2 [OpInsert "a" 1%float; OpInsert "b" 2%float] tt
             (LRUCache.mk 2 [] ∅ []) c tt); [lia|reflexivity|].
    vm_compute. reflexivity. }
  split; [exact Hwf|]. split; [reflexivity|].
  apply (Insert_present_updates_in_place c "a" 0%nat 5%float Hwf). reflexivity.
Defined.

(** C6.  [New] panics exactly for [sz <= 0]; for [sz > 0] it returns a
    cache with no element, no key and no entry whose [size] is [sz], and
    after any sequence of calls on it [size] is still [sz]. *)
Theorem New_capacity (sz : Z) :
  ((∃ msg, New sz = Panic msg) ↔ sz ≤ 0) ∧
  (0 < sz →
   ∃ c, New sz = Ok c ∧ LRUCache.list c = [] ∧ LRUCache.cache c = ∅ ∧
     entries c = [] ∧ LRUCache.size c = sz ∧
     ∀ W (ops : list (op W)) (w : W),
       ∃ c' w', run ops (c, w) = Ok (c', w') ∧ LRUCache.size c' = sz).
Proof.
  split.
  - unfold New. case_decide as Hd; split.
    + done.
    + intros _. by eexists.
    + intros [msg Hm]. discriminate.
    + intros Hle. lia.
  - intros Hsz. destruct (wf_New sz Hsz) as [Hnew Hwf0].
    eexists. split; [exact Hnew|]. repeat split.
    intros W ops w. destruct (wf_run ops _ w Hwf0) as (c' & w' & Hrun & _ & Hsize).
    by exists c', w'.
Qed.

Lemma New_capacity_witness :
  (∃ msg, New 0 = Panic msg) ∧ (∃ msg, New (-3) = Panic msg) ∧
  0 < 2 ∧
  ∃ c, New 2 = Ok c ∧ LRUCache.list c = [] ∧ LRUCache.cache c = ∅ ∧
    entries c = [] ∧ LRUCache.size c = 2 ∧
    ∀ W (ops : list (op W)) (w : W),
      ∃ c' w', run ops (c, w) = Ok (c', w') ∧ LRUCache.size c' = 2.
Proof.
  split; [apply (New_capacity 0); lia|].
  split; [apply (New_capacity (-3)); lia|].
  split; [lia|]. apply (New_capacity 2). lia.
Defined.

(** C7.  On a miss, when the loader returns a non-nil error,
    [FastRateLookup] returns NaN and the error "Using provided data
    acquistion routine", which is not the error [Get] returns for a key
    that is not found; the cache is the one before the call (so the key is
    still absent), and the loader's world is the one after its call. *)
Theorem FastRateLookup_loader_failure {W} c k (loader : LoaderFunc W) w v err w' :
  LRUCache.cache c !! k = None → loader k w = ((v, Some err), w') →
  ∃ e_load e_miss,
    FastRateLookup k (Some loader) (c, w) = Ok ((math_NaN, Some e_load), (c, w')) ∧
    Get k c = Ok ((None, Some e_miss), c) ∧
    e_load ≠ e_miss ∧
    LRUCache.cache c !! k = None.
Proof.
  intros Hk Hload.
  exists (errors_New "Using provided data acquistion routine"),
         (errors_New "Key not found").
  split; [by eapply FastRateLookup_miss_fail|].
  split; [by apply Get_miss|]. split; [discriminate|done].
Qed.

Lemma FastRateLookup_loader_failure_witness :
  let c := LRUCache.mk 2 [0%nat] {[ "a" := 0%nat ]} [mkCacheItem "a" 1%float] in
  LRUCache.cache c !! "b" = None ∧
  counting_loader 0%float (Some (errors_New "lookup failed")) "b" 0%nat
    = ((0%float, Some (errors_New "lookup failed")), 1%nat) ∧
  ∃ e_load e_miss,
    FastRateLookup "b" (Some (counting_loader 0%float (Some (errors_New "lookup failed"))))
      (c, 0%nat) = Ok ((math_NaN, Some e_load), (c, 1%nat)) ∧
    Get "b" c = Ok ((None, Some e_miss), c) ∧
    e_load ≠ e_miss ∧
    LRUCache.cache c !! "b" = None.
Proof.
  intros c. split; [reflexivity|]. split; [reflexivity|].
  apply (FastRateLookup_loader_failure c "b"
           (counting_loader 0%float (Some (errors_New "lookup failed")))
           0%nat 0%float (errors_New "lookup failed") 1%nat); reflexivity.
Defined.

(** C8.  When the index leads to a value [v] for the key, [FastRateLookup]
    returns [v] and a nil error whatever the loader argument is (nil
    included), the key still leads to [v], and the loader's world is
    untouched: the loader was not called. *)
Theorem FastRateLookup_hit_skips_loader {W} c k v
    (loader : option (LoaderFunc W)) (w : W) :
  cached c k = Some v →
  ∃ c', FastRateLookup k loader (c, w) = Ok ((v, None), (c', w)) ∧
        cached c' k = Some v ∧
        LRUCache.cache c' = LRUCache.cache c ∧
        LRUCache.store c' = LRUCache.store c.
Proof.
  unfold cached. intros Hc.
  destruct (LRUCache.cache c !! k) as [e|] eqn:Hk; [|done].
  destruct (LRUCache.store c !! e) as [it|] eqn:Hs; [|done].
  injection Hc as <-. eexists. split; [by apply (FastRateLookup_hit c k e it)|].
  simpl. by rewrite Hk, Hs.
Qed.

Lemma FastRateLookup_hit_skips_loader_witness :
  let c := LRUCache.mk 2 [0%nat] {[ "a" := 0%nat ]} [mkCacheItem "a" 1%float] in
  cached c "a" = Some 1%float ∧
  (∃ c', FastRateLookup "a" (Some (counting_loader 7%float None)) (c, 0%nat)
           = Ok ((1%float, None), (c', 0%nat)) ∧
         cached c' "a" = Some 1%float ∧
         LRUCache.cache c' = LRUCache.cache c ∧
         LRUCache.store c' = LRUCache.store c) ∧
  (∃ c', FastRateLookup (W:=nat) "a" None (c, 0%nat)
           = Ok ((1%float, None), (c', 0%nat)) ∧
         cached c' "a" = Some 1%float ∧
         LRUCache.cache c' = LRUCache.cache c ∧
         LRUCache.store c' = LRUCache.store c).
Proof.
  intros c. split; [reflexivity|]. split.
  - apply (FastRateLookup_hit_skips_loader c "a" 1%float
             (Some (counting_loader 7%float None)) 0%nat). reflexivity.
  - apply (FastRateLookup_hit_skips_loader c "a" 1%float None 0%nat). reflexivity.
Defined.

(** C10.  Whenever [FastRateLookup] returns a non-nil error, the float it
    returns with it is NaN. *)
Theorem FastRateLookup_error_NaN {W} k (loader : option (LoaderFunc W)) s r err s' :
  FastRateLookup k loader s = Ok ((r, Some err), s') → math_IsNaN r = true.
Proof.
  destruct s as [c w]. unfold FastRateLookup.
  destruct (Get k c) as [[[val [err0|]] c1]|msg]; cbn [mbind result_bind].
  - destruct loader as [loader|].
    + destruct (loader k w) as [[v [e|]] w1].
      * intros H. by injection H as <- _ _.
      * destruct (Insert k v c1) as [[? ?]|]; cbn [mbind result_bind]; discriminate.
    + intros H. by injection H as <- _ _.
  - destruct val as [p|]; [|discriminate].
    destruct (deref c1 p); cbn [mbind result_bind]; discriminate.
  - discriminate.
Qed.

Lemma FastRateLookup_error_NaN_witness :
  FastRateLookup (W:=nat) "a" None (LRUCache.mk 1 [] ∅ [], 0%nat)
    = Ok ((math_NaN, Some (errors_New "Key not found")),
          (LRUCache.mk 1 [] ∅ [], 0%nat)) ∧
  math_IsNaN math_NaN = true.
Proof.
  split; [reflexivity|].
  apply (FastRateLookup_error_NaN (W:=nat) "a" None (LRUCache.mk 1 [] ∅ [], 0%nat)
           math_NaN (errors_New "Key not found") (LRUCache.mk 1 [] ∅ [], 0%nat)).
  reflexivity.
Defined.

(** * Further properties of the code *)

(** ** Searching the ledger *)

Lemma find_cons_ne k it es :
  key it ≠ k → Spec.find k (it :: es) = Spec.find k es.
Proof. intros Hne. unfold Spec.find. by rewrite filter_cons_False. Qed.

Lemma find_cons_eq it es : Spec.find (key it) (it :: es) = Some it.
Proof. unfold Spec.find. by rewrite filter_cons_True. Qed.

Lemma find_without_ne k k' es :
  k' ≠ k → Spec.find k' (Spec.without k es) = Spec.find k' es.
Proof.
  intros Hne. unfold Spec.find, Spec.without.
  induction es as [|x es IH]; [done|].
  destruct (decide (key x = k)) as [Hk|Hk].
  - rewrite (filter_cons_False (λ it, key it ≠ k)) by (intros Hn; by apply Hn).
    rewrite (filter_cons_False (λ it, key it = k')) by congruence. done.
  - rewrite (filter_cons_True (λ it, key it ≠ k)) by done.
    destruct (decide (key x = k')) as [Hk'|Hk'].
    + by rewrite !(filter_cons_True (λ it, key it = k')).
    + by rewrite !(filter_cons_False (λ it, key it = k')).
Qed.

Lemma find_snoc_ne k it es :
  key it ≠ k → Spec.find k (es ++ [it]) = Spec.find k es.
Proof.
  intros Hne. unfold Spec.find. rewrite filter_app.
  rewrite (filter_cons_False _ it []) by done. by rewrite app_nil_r.
Qed.

Lemma find_elem_of k it es : Spec.find k es = Some it → it ∈ es ∧ key it = k.
Proof.
  unfold Spec.find. intros Hf. apply head_Some_elem_of in Hf.
  apply list_elem_of_filter in Hf. tauto.
Qed.

Lemma find_None_keys k es : Spec.find k es = None ↔ k ∉ key <$> es.
Proof.
  split; [|apply find_absent].
  unfold Spec.find. induction es as [|x es IH]; intros Hf Hin; [inversion Hin|].
  rewrite fmap_cons in Hin. destruct (decide (key x = k)) as [Hk|Hk].
  - by rewrite filter_cons_True in Hf.
  - rewrite filter_cons_False in Hf by done.
    apply elem_of_cons in Hin as [->|Hin]; [done|]. by apply IH.
Qed.

(** ** More on the invariant *)

(** No two entries of the list carry the same key. *)
Lemma linked_NoDup_keys c : linked c → NoDup (key <$> entries c).
Proof.
  intros Hl. unfold entries.
  assert (Hinj : ∀ x y itx ity, x ∈ LRUCache.list c → y ∈ LRUCache.list c →
            LRUCache.store c !! x = Some itx → LRUCache.store c !! y = Some ity →
            key itx = key ity → x = y).
  { intros x y itx ity Hx Hy Hsx Hsy Hk.
    destruct (linked_elem c Hl y Hy) as (it' & Hs' & Hc).
    rewrite Hsy in Hs'. injection Hs' as <-.
    by apply (linked_holder c (key ity) y x itx). }
  assert (Hnd := linked_NoDup c Hl). revert Hinj Hnd.
  generalize (LRUCache.list c). intros l.
  induction l as [|y l IH]; intros Hinj Hnd; [constructor|].
  apply NoDup_cons in Hnd as [Hy Hnd]. rewrite omap_cons.
  assert (IH' : NoDup (key <$> omap (λ e, LRUCache.store c !! e) l)).
  { apply IH; [|done]. intros x1 x2 i1 i2 H1 H2. apply Hinj; by right. }
  destruct (LRUCache.store c !! y) as [ity|] eqn:Hsy; [|done].
  rewrite fmap_cons. apply NoDup_cons. split; [|done].
  intros Hin. apply list_elem_of_fmap in Hin as (itx & Hk & Hin).
  apply list_elem_of_omap in Hin as (x & Hx & Hsx).
  apply Hy. rewrite (Hinj y x ity itx); [done|by left|by right|done|done|done].
Qed.

Lemma linked_index_keys c k :
  linked c → is_Some (LRUCache.cache c !! k) ↔ k ∈ key <$> entries c.
Proof.
  intros Hl. split.
  - intros [e He]. destruct (linked_lookup c k e Hl He) as (it & _ & _ & _ & Hf).
    destruct (decide (k ∈ key <$> entries c)) as [|Hn]; [done|].
    apply find_None_keys in Hn. congruence.
  - intros Hin. destruct (LRUCache.cache c !! k) as [e|] eqn:Hk; [by eexists|].
    apply (linked_lookup_None c k Hl) in Hk. by apply find_None_keys in Hk.
Qed.

Lemma prune_loop_linked n : ∀ c,
  linked c →
  ∃ c', prune_loop n c = Ok (None, c') ∧ linked c' ∧
    entries c' = take (length (entries c) - n) (entries c) ∧
    LRUCache.size c' = LRUCache.size c ∧
    LRUCache.store c' = LRUCache.store c.
Proof.
  induction n as [|n IH]; intros c Hl.
  - exists c. split; [done|]. split; [done|]. split; [|done].
    rewrite take_ge; [done|lia].
  - cbn [prune_loop].
    destruct (clist.Back (LRUCache.list c)) as [eb|] eqn:Hb.
    + destruct (linked_evict c eb Hl Hb) as (it & Hs & Hc & Hl1 & Hlen1 & Hent1).
      rewrite (Value_Some _ eb it) by done. cbn [mbind result_bind].
      set (c1 := with_cache (with_list c (clist.Remove eb (LRUCache.list c)))
                    (delete (key it) (LRUCache.cache c))) in *.
      destruct (IH c1 Hl1) as (c' & Hp & Hl' & Hent' & Hsz' & Hst').
      exists c'. split; [exact Hp|]. split; [done|]. split; [|by split].
      rewrite Hent', Hent1, removelast_firstn_len.
      rewrite length_take, take_take. f_equal. lia.
    + exists c. apply last_None in Hb. unfold entries. rewrite Hb.
      split; [done|]. split; [done|]. by split.
Qed.

Lemma wf_cache_ab : wf cache_ab.
Proof.
  apply (wf_reached (W:=unit) 2 [OpInsert "a" 1%float; OpInsert "b" 2%float] tt
           (LRUCache.mk 2 [] ∅ []) cache_ab tt); [lia|reflexivity|].
  vm_compute. reflexivity.
Qed.

Lemma wf_cache_a : wf cache_a.
Proof.
  apply (wf_reached (W:=unit) 3 [OpInsert "a" 1%float] tt
           (LRUCache.mk 3 [] ∅ []) cache_a tt); [lia|reflexivity|].
  vm_compute. reflexivity.
Qed.

Lemma without_id k es : k ∉ key <$> es → Spec.without k es = es.
Proof.
  unfold Spec.without. induction es as [|x es IH]; intros Hk; [done|].
  rewrite fmap_cons in Hk. apply not_elem_of_cons in Hk as [Hne Hk].
  rewrite filter_cons_True by congruence. by rewrite IH.
Qed.

Lemma Insertion_head capacity k v es :
  ∃ tl, Spec.Insertion capacity k v es = mkCacheItem k v :: tl.
Proof. unfold Spec.Insertion. destruct (Spec.find k es); by eexists. Qed.

(** ** Extra properties *)

(** X1.  [prune n] on a cache whose list and index are linked returns a
    nil error; it removes the [n] entries at the back of the list (all of
    them when there are fewer, none when [n <= 0]), keeps the others in
    their order, and removes the same keys from the index, so that the
    index still agrees with the list.  With [n <= 0] or an empty list the
    cache is returned as it was. *)
Theorem prune_removes_back_entries c n :
  linked c →
  ∃ c', prune n c = Ok (None, c') ∧ linked c' ∧
    entries c' = take (length (entries c) - Z.to_nat n) (entries c) ∧
    (∀ k, cached c' k = value <$> Spec.find k (entries c')) ∧
    LRUCache.size c' = LRUCache.size c ∧
    (n ≤ 0 ∨ LRUCache.list c = [] → c' = c).
Proof.
  intros Hl. unfold prune.
  destruct (prune_loop_linked (Z.to_nat n) c Hl) as (c' & Hp & Hl' & Hent & Hsz & _).
  exists c'. split; [done|]. split; [done|]. split; [done|].
  split; [intros k; by apply linked_cached|]. split; [done|].
  intros Hedge. destruct (Z.to_nat n) as [|m] eqn:Hn.
  - simpl in Hp. by injection Hp as <-.
  - destruct Hedge as [Hle|Hnil]; [lia|].
    cbn [prune_loop] in Hp. rewrite Hnil in Hp. simpl in Hp. by injection Hp as <-.
Qed.

Lemma prune_removes_back_entries_witness :
  linked cache_ab ∧
  ∃ c', prune 1 cache_ab = Ok (None, c') ∧ linked c' ∧
    entries c' = take (length (entries cache_ab) - Z.to_nat 1) (entries cache_ab) ∧
    (∀ k, cached c' k = value <$> Spec.find k (entries c')) ∧
    LRUCache.size c' = LRUCache.size cache_ab ∧
    (1 ≤ 0 ∨ LRUCache.list cache_ab = [] → c' = cache_ab).
Proof.
  split; [apply wf_cache_ab|].
  apply (prune_removes_back_entries cache_ab 1). apply wf_cache_ab.
Defined.

(** [Insert] leaves the pair it was given at the front of the list, and
    the index leads to it. *)
Lemma Insert_front_item c k v :
  wf c →
  ∃ c1 e tl, Insert k v c = Ok (None, c1) ∧ wf c1 ∧
    LRUCache.cache c1 !! k = Some e ∧
    LRUCache.store c1 !! e = Some (mkCacheItem k v) ∧
    entries c1 = mkCacheItem k v :: tl.
Proof.
  intros Hwf.
  destruct (Insert_refines c k v Hwf) as (c1 & Hins & Hwf1 & Hsz1 & Hent1).
  destruct (Insertion_head (LRUCache.size c) k v (entries c)) as [tl Htl].
  rewrite Htl in Hent1.
  assert (Hl1 := wf_linked c1 Hwf1).
  assert (Hf : Spec.find k (entries c1) = Some (mkCacheItem k v)).
  { rewrite Hent1. apply (find_cons_eq (mkCacheItem k v)). }
  destruct (LRUCache.cache c1 !! k) as [e|] eqn:Hk.
  2:{ rewrite (linked_lookup_None c1 k Hl1 Hk) in Hf. discriminate. }
  destruct (linked_lookup c1 k e Hl1 Hk) as (it & Hs & _ & _ & Hf').
  rewrite Hf in Hf'. injection Hf' as <-.
  by exists c1, e, tl.
Qed.

(** [Get] of the key of the first entry changes nothing in the order. *)
Lemma Get_front_noop c e it tl :
  wf c → LRUCache.cache c !! key it = Some e → entries c = it :: tl →
  ∃ c', Get (key it) c = Ok ((Some e, None), c') ∧ wf c' ∧
    LRUCache.store c' = LRUCache.store c ∧ entries c' = entries c.
Proof.
  intros Hwf Hk Hent. assert (Hl := wf_linked c Hwf).
  destruct (Get_refines c (key it) Hwf)
    as (r & c' & Hget & Hwf' & _ & _ & Hst & Hent' & Hr).
  rewrite Hk in Hr. subst r. exists c'.
  split; [done|]. split; [done|]. split; [done|].
  rewrite Hent'. unfold Spec.Lookup. rewrite Hent, find_cons_eq.
  f_equal. unfold Spec.without.
  rewrite filter_cons_False by (intros Hn; by apply Hn).
  apply without_id. assert (Hnd := linked_NoDup_keys c Hl).
  rewrite Hent, fmap_cons in Hnd. by apply NoDup_cons in Hnd as [? _].
Qed.

(** X2.  Round trip: on a well-formed cache, [Insert(k, v)] followed by
    [Get(k)] returns a pointer to the item [(k, v)] and a nil error, and
    this [Get] leaves the order of the entries as [Insert] left it. *)
Theorem Get_after_Insert c k v :
  wf c →
  ∃ c1 p c2, Insert k v c = Ok (None, c1) ∧
    Get k c1 = Ok ((Some p, None), c2) ∧
    LRUCache.store c2 !! p = Some (mkCacheItem k v) ∧
    entries c2 = entries c1 ∧ wf c2.
Proof.
  intros Hwf.
  destruct (Insert_front_item c k v Hwf) as (c1 & e & tl & Hins & Hwf1 & Hk & Hs & Hent).
  destruct (Get_front_noop c1 e (mkCacheItem k v) tl Hwf1 Hk Hent)
    as (c2 & Hget & Hwf2 & Hst & Hent2).
  exists c1, e, c2. split; [done|]. split; [done|].
  split; [by rewrite Hst|by split].
Qed.

Lemma Get_after_Insert_witness :
  wf cache_ab ∧
  ∃ c1 p c2, Insert "c" 3%float cache_ab = Ok (None, c1) ∧
    Get "c" c1 = Ok ((Some p, None), c2) ∧
    LRUCache.store c2 !! p = Some (mkCacheItem "c" 3%float) ∧
    entries c2 = entries c1 ∧ wf c2.
Proof.
  split; [apply wf_cache_ab|].
  apply (Get_after_Insert cache_ab "c" 3%float). apply wf_cache_ab.
Defined.

(** X3.  [Get] never changes what the cache holds: on a well-formed cache
    every key leads to the same value after the call as before, and the
    entries are the same up to their order.  For a key that is cached with
    value [v] it returns a pointer to the item [(k, v)] with a nil error
    and that item is then the first entry; for any other key it returns
    nil with the error "Key not found" and the cache is untouched. *)
Theorem Get_keeps_contents c k :
  wf c →
  ∃ r c', Get k c = Ok (r, c') ∧ wf c' ∧
    (∀ k', cached c' k' = cached c k') ∧
    entries c' ≡ₚ entries c ∧
    match cached c k with
    | Some v => ∃ p, r = (Some p, None) ∧
        LRUCache.store c' !! p = Some (mkCacheItem k v) ∧
        head (entries c') = Some (mkCacheItem k v)
    | None => r = (None, Some (errors_New "Key not found")) ∧ c' = c
    end.
Proof.
  intros Hwf. assert (Hl := wf_linked c Hwf).
  destruct (Get_refines c k Hwf) as (r & c' & Hget & Hwf' & _ & Hca & Hst & Hent & Hr).
  exists r, c'. split; [done|]. split; [done|].
  split; [intros k'; unfold cached; by rewrite Hca, Hst|].
  unfold cached. destruct (LRUCache.cache c !! k) as [e|] eqn:Hk.
  - destruct (linked_lookup c k e Hl Hk) as (it & Hs & Hkey & He & Hf).
    rewrite Hs. rewrite (Get_hit c k e it) in Hget by done.
    injection Hget as _ <-. split.
    + unfold entries. simpl. by rewrite MoveToFront_Permutation.
    + exists e. split; [done|]. destruct it as [ki vi]. simpl in Hkey. subst ki.
      split; [done|]. unfold entries. simpl.
      rewrite MoveToFront_elem by done. by rewrite omap_cons, Hs.
  - rewrite Get_miss in Hget by done. injection Hget as _ <-. by subst r.
Qed.

Lemma Get_keeps_contents_witness :
  wf cache_ab ∧
  (∃ r c', Get "a" cache_ab = Ok (r, c') ∧ wf c' ∧
    (∀ k', cached c' k' = cached cache_ab k') ∧
    entries c' ≡ₚ entries cache_ab ∧
    match cached cache_ab "a" with
    | Some v => ∃ p, r = (Some p, None) ∧
        LRUCache.store c' !! p = Some (mkCacheItem "a" v) ∧
        head (entries c') = Some (mkCacheItem "a" v)
    | None => r = (None, Some (errors_New "Key not found")) ∧ c' = cache_ab
    end) ∧
  cached cache_ab "a" = Some 1%float ∧ cached cache_ab "z" = None.
Proof.
  split; [apply wf_cache_ab|].
  split; [apply (Get_keeps_contents cache_ab "a"); apply wf_cache_ab|].
  split; reflexivity.
Defined.

(** X4.  [Insert] evicts nothing unless the key is new and the cache is
    full: when the key is already cached, or the list is shorter than the
    capacity, the key leads to the new value afterwards, every other key
    leads to what it led to before, and the number of entries grows by one
    exactly when the key is new. *)
Theorem Insert_keeps_others c k v :
  wf c →
  is_Some (LRUCache.cache c !! k) ∨ clist.Len (LRUCache.list c) < LRUCache.size c →
  ∃ c', Insert k v c = Ok (None, c') ∧ wf c' ∧
    cached c' k = Some v ∧
    (∀ k', k' ≠ k → cached c' k' = cached c k') ∧
    length (entries c') =
      match LRUCache.cache c !! k with
      | Some _ => length (entries c)
      | None => S (length (entries c))
      end.
Proof.
  intros Hwf Hcase. assert (Hl := wf_linked c Hwf).
  destruct (Insert_refines c k v Hwf) as (c' & Hins & Hwf' & Hsz & Hent).
  assert (Hl' := wf_linked c' Hwf').
  exists c'. split; [done|]. split; [done|].
  assert (Hshape : entries c' =
            mkCacheItem k v :: match LRUCache.cache c !! k with
                               | Some _ => Spec.without k (entries c)
                               | None => entries c
                               end).
  { rewrite Hent. unfold Spec.Insertion.
    destruct (LRUCache.cache c !! k) as [e|] eqn:Hk.
    - destruct (linked_lookup c k e Hl Hk) as (it & _ & _ & _ & Hf). by rewrite Hf.
    - rewrite (linked_lookup_None c k Hl Hk).
      destruct Hcase as [[? ?]|Hroom]; [done|].
      unfold clist.Len in Hroom. rewrite (linked_length c Hl).
      by destruct (Z.ltb_spec (Z.of_nat (length (LRUCache.list c))) (LRUCache.size c));
        [|lia]. }
  split; [|split].
  - rewrite (linked_cached c' k Hl'), Hshape.
    by rewrite (find_cons_eq (mkCacheItem k v)).
  - intros k' Hne. rewrite (linked_cached c' k' Hl'), (linked_cached c k' Hl), Hshape.
    rewrite find_cons_ne by (simpl; congruence).
    destruct (LRUCache.cache c !! k); [by rewrite find_without_ne|done].
  - destruct (LRUCache.cache c !! k) as [e|] eqn:Hk; [|by rewrite Hshape].
    rewrite !linked_length by done.
    destruct Hwf as [_ _ Hcap].
    destruct (Insert_hit_refines c k e v Hl Hk) as (_ & Hlen & _).
    rewrite (Insert_hit c k e v Hl Hk) in Hins. injection Hins as <-. done.
Qed.

Lemma Insert_keeps_others_witness :
  wf cache_a ∧
  (is_Some (LRUCache.cache cache_a !! "b") ∨
   clist.Len (LRUCache.list cache_a) < LRUCache.size cache_a) ∧
  ∃ c', Insert "b" 2%float cache_a = Ok (None, c') ∧ wf c' ∧
    cached c' "b" = Some 2%float ∧
    (∀ k', k' ≠ "b" → cached c' k' = cached cache_a k') ∧
    length (entries c') =
      match LRUCache.cache cache_a !! "b" with
      | Some _ => length (entries cache_a)
      | None => S (length (entries cache_a))
      end.
Proof.
  split; [apply wf_cache_a|]. split; [right; vm_compute; reflexivity|].
  apply (Insert_keeps_others cache_a "b" 2%float); [apply wf_cache_a|].
  right. vm_compute. reflexivity.
Defined.

(** X5.  [Insert] of a new key into a full cache evicts exactly the entry
    at the back of the list: the new pair comes first, the other entries
    follow in their order, the key of the former back entry is gone from
    the index, and every other key leads to what it led to before. *)
Theorem Insert_full_evicts_back c k v es back :
  wf c → LRUCache.cache c !! k = None →
  clist.Len (LRUCache.list c) = LRUCache.size c →
  entries c = es ++ [back] →
  ∃ c', Insert k v c = Ok (None, c') ∧ wf c' ∧
    entries c' = mkCacheItem k v :: es ∧
    cached c' k = Some v ∧
    LRUCache.cache c' !! key back = None ∧
    (∀ k', k' ≠ k → k' ≠ key back → cached c' k' = cached c k').
Proof.
  intros Hwf Hk Hfull Hes. assert (Hl := wf_linked c Hwf).
  destruct (Insert_refines c k v Hwf) as (c' & Hins & Hwf' & Hsz & Hent).
  assert (Hl' := wf_linked c' Hwf').
  assert (Hshape : entries c' = mkCacheItem k v :: es).
  { rewrite Hent. unfold Spec.Insertion.
    rewrite (linked_lookup_None c k Hl Hk), (linked_length c Hl).
    unfold clist.Len in Hfull.
    destruct (Z.ltb_spec (Z.of_nat (length (LRUCache.list c))) (LRUCache.size c));
      [lia|].
    by rewrite Hes, removelast_last. }
  assert (Hnd := linked_NoDup_keys c Hl).
  rewrite Hes, fmap_app in Hnd. apply NoDup_app in Hnd as (_ & Hdis & _).
  assert (Hbk : key back ≠ k).
  { intros Heq. apply (linked_lookup_None c k Hl) in Hk.
    apply find_None_keys in Hk. apply Hk. rewrite Hes, fmap_app, <- Heq.
    apply elem_of_app. right. simpl. by left. }
  exists c'. split; [done|]. split; [done|]. split; [done|]. split; [|split].
  - rewrite (linked_cached c' k Hl'), Hshape.
    by rewrite (find_cons_eq (mkCacheItem k v)).
  - destruct (LRUCache.cache c' !! key back) as [e|] eqn:Hb; [|done].
    assert (Hin : key back ∈ key <$> entries c').
    { apply linked_index_keys; [done|by eexists]. }
    rewrite Hshape, fmap_cons in Hin. apply elem_of_cons in Hin as [Heq|Hin].
    + simpl in Heq. congruence.
    + exfalso. apply (Hdis _ Hin). simpl. by left.
  - intros k' Hne Hnb.
    rewrite (linked_cached c' k' Hl'), (linked_cached c k' Hl), Hshape, Hes.
    rewrite find_cons_ne by (simpl; congruence).
    by rewrite find_snoc_ne by congruence.
Qed.

Lemma Insert_full_evicts_back_witness :
  wf cache_ab ∧ LRUCache.cache cache_ab !! "c" = None ∧
  clist.Len (LRUCache.list cache_ab) = LRUCache.size cache_ab ∧
  entries cache_ab = [mkCacheItem "b" 2%float] ++ [mkCacheItem "a" 1%float] ∧
  ∃ c', Insert "c" 3%float cache_ab = Ok (None, c') ∧ wf c' ∧
    entries c' = mkCacheItem "c" 3%float :: [mkCacheItem "b" 2%float] ∧
    cached c' "c" = Some 3%float ∧
    LRUCache.cache c' !! key (mkCacheItem "a" 1%float) = None ∧
    (∀ k', k' ≠ "c" → k' ≠ key (mkCacheItem "a" 1%float) →
       cached c' k' = cached cache_ab k').
Proof.
  split; [apply wf_cache_ab|]. split; [reflexivity|]. split; [reflexivity|].
  split; [reflexivity|].
  apply (Insert_full_evicts_back cache_ab "c" 3%float
           [mkCacheItem "b" 2%float] (mkCacheItem "a" 1%float));
    [apply wf_cache_ab|reflexivity|reflexivity|reflexivity].
Defined.

(** X6.  The most recently used entries are safe from an insertion: if the
    first entries of the list are fewer than the capacity and none of them
    has the key being inserted, then after [Insert] they follow the new
    pair directly, all of them and in the same order. *)
Theorem Insert_keeps_recent c k v fr r :
  wf c → entries c = fr ++ r →
  Z.of_nat (length fr) < LRUCache.size c →
  (∀ it, it ∈ fr → key it ≠ k) →
  ∃ c' r', Insert k v c = Ok (None, c') ∧ wf c' ∧
    entries c' = mkCacheItem k v :: fr ++ r' ∧
    (∀ it, it ∈ fr → cached c' (key it) = Some (value it)).
Proof.
  intros Hwf Hes Hlen Hfr.
  destruct (Insert_refines c k v Hwf) as (c' & Hins & Hwf' & Hsz & Hent).
  destruct (spec_Insert_front (LRUCache.size c) k v fr r Hfr Hlen) as [r' Hfront].
  rewrite Hes, Hfront in Hent.
  exists c', r'. split; [done|]. split; [done|]. split; [done|].
  intros it Hit. assert (Hl' := wf_linked c' Hwf').
  rewrite (linked_cached c' _ Hl'), find_unique; [done|by apply linked_NoDup_keys|].
  rewrite Hent. right. apply elem_of_app. by left.
Qed.

Lemma Insert_keeps_recent_witness :
  wf cache_ab ∧
  entries cache_ab = [mkCacheItem "b" 2%float] ++ [mkCacheItem "a" 1%float] ∧
  Z.of_nat (length [mkCacheItem "b" 2%float]) < LRUCache.size cache_ab ∧
  (∀ it, it ∈ [mkCacheItem "b" 2%float] → key it ≠ "c") ∧
  ∃ c' r', Insert "c" 3%float cache_ab = Ok (None, c') ∧ wf c' ∧
    entries c' = mkCacheItem "c" 3%float :: [mkCacheItem "b" 2%float] ++ r' ∧
    (∀ it, it ∈ [mkCacheItem "b" 2%float] → cached c' (key it) = Some (value it)).
Proof.
  assert (Hfr : ∀ it, it ∈ [mkCacheItem "b" 2%float] → key it ≠ "c").
  { intros it Hit. apply list_elem_of_singleton in Hit. subst it. discriminate. }
  split; [apply wf_cache_ab|]. split; [reflexivity|]. split; [reflexivity|].
  split; [exact Hfr|].
  apply (Insert_keeps_recent cache_ab "c" 3%float
           [mkCacheItem "b" 2%float] [mkCacheItem "a" 1%float]);
    [apply wf_cache_ab|reflexivity|reflexivity|exact Hfr].
Defined.

(** X7.  In every cache reached from [New sz] by [Insert], [Get] and
    [FastRateLookup] calls, no element is linked twice, no two entries
    have the same key, the keys of the index are exactly the keys of the
    entries, and what the index leads to for a key is the value of the
    entry found for that key in the list. *)
Theorem reachable_index_matches_list {W} sz (ops : list (op W)) (w : W) :
  0 < sz →
  ∃ c0 c' w', New sz = Ok c0 ∧ run ops (c0, w) = Ok (c', w') ∧
    NoDup (LRUCache.list c') ∧
    NoDup (key <$> entries c') ∧
    (∀ k, is_Some (LRUCache.cache c' !! k) ↔ k ∈ key <$> entries c') ∧
    (∀ k, cached c' k = value <$> Spec.find k (entries c')).
Proof.
  intros Hsz. destruct (wf_New sz Hsz) as [Hnew Hwf0].
  destruct (wf_run ops _ w Hwf0) as (c' & w' & Hrun & [Hl _ _] & _).
  exists (LRUCache.mk sz [] ∅ []), c', w'.
  split; [done|]. split; [done|]. split; [apply Hl|].
  split; [by apply linked_NoDup_keys|].
  split; intros k; [by apply linked_index_keys|by apply linked_cached].
Qed.

Lemma reachable_index_matches_list_witness :
  0 < 2 ∧
  ∃ c0 c' w', New 2 = Ok c0 ∧
    run [OpInsert "a" 1%float; OpFastRateLookup "b" (Some (counting_loader 2%float None));
         OpGet "a"; OpInsert "c" 3%float; OpInsert "a" 4%float] (c0, 0%nat)
      = Ok (c', w') ∧
    NoDup (LRUCache.list c') ∧
    NoDup (key <$> entries c') ∧
    (∀ k, is_Some (LRUCache.cache c' !! k) ↔ k ∈ key <$> entries c') ∧
    (∀ k, cached c' k = value <$> Spec.find k (entries c')).
Proof.
  split; [lia|].
  apply (reachable_index_matches_list 2
           [OpInsert "a" 1%float;
            OpFastRateLookup "b" (Some (counting_loader 2%float None));
            OpGet "a"; OpInsert "c" 3%float; OpInsert "a" 4%float] 0%nat).
  lia.
Defined.

(** X8.  After [FastRateLookup] has filled a miss from a loader that
    returned [v], the next [FastRateLookup] for the same key returns [v]
    with a nil error whatever loader it is given, does not call that
    loader, and leaves the order of the entries as it is (the key is
    already in front).  The first call itself returned NaN. *)
Theorem FastRateLookup_after_fill {W} c k (loader : LoaderFunc W)
    (loader' : option (LoaderFunc W)) w v w1 :
  wf c → LRUCache.cache c !! k = None → loader k w = ((v, None), w1) →
  ∃ c1 c2,
    FastRateLookup k (Some loader) (c, w) = Ok ((math_NaN, None), (c1, w1)) ∧
    FastRateLookup k loader' (c1, w1) = Ok ((v, None), (c2, w1)) ∧
    entries c2 = entries c1 ∧ wf c2.
Proof.
  intros Hwf Hk Hload.
  destruct (Insert_front_item c k v Hwf) as (c1 & e & tl & Hins & Hwf1 & Hk1 & Hs & Hent).
  destruct (Get_front_noop c1 e (mkCacheItem k v) tl Hwf1 Hk1 Hent)
    as (c2 & Hget & Hwf2 & Hst & Hent2).
  exists c1, c2. split; [|split; [|by split]].
  - rewrite (FastRateLookup_miss_load c k loader w v w1) by done. by rewrite Hins.
  - unfold FastRateLookup. simpl key in Hget. rewrite Hget. cbn [mbind result_bind].
    rewrite (deref_Some c2 e (mkCacheItem k v)); [done|by rewrite Hst].
Qed.

Lemma FastRateLookup_after_fill_witness :
  wf cache_ab ∧ LRUCache.cache cache_ab !! "c" = None ∧
  counting_loader 3%float None "c" 0%nat = ((3%float, None), 1%nat) ∧
  ∃ c1 c2,
    FastRateLookup "c" (Some (counting_loader 3%float None)) (cache_ab, 0%nat)
      = Ok ((math_NaN, None), (c1, 1%nat)) ∧
    FastRateLookup "c" (Some (counting_loader 9%float None)) (c1, 1%nat)
      = Ok ((3%float, None), (c2, 1%nat)) ∧
    entries c2 = entries c1 ∧ wf c2.
Proof.
  split; [apply wf_cache_ab|]. split; [reflexivity|]. split; [reflexivity|].
  apply (FastRateLookup_after_fill cache_ab "c" (counting_loader 3%float None)
           (Some (counting_loader 9%float None)) 0%nat 3%float 1%nat);
    [apply wf_cache_ab|reflexivity|reflexivity].
Defined.

(** X9.  The errors of [FastRateLookup].  When it returns a non-nil error
    the key was absent and the cache is returned unchanged, and there are
    two cases only: no loader was given, the error is the "Key not found"
    of [Get] and no loader was called; or the loader given returned an
    error and the error is "Using provided data acquistion routine" (the
    loader's own error is dropped).  The error "Value insertion into cache
    failed" is never returned. *)
Theorem FastRateLookup_error_cases {W} k (loader : option (LoaderFunc W)) c w r err s' :
  FastRateLookup k loader (c, w) = Ok ((r, Some err), s') →
  s'.1 = c ∧ LRUCache.cache c !! k = None ∧
  ((loader = None ∧ err = errors_New "Key not found" ∧ s'.2 = w) ∨
   (∃ l v e, loader = Some l ∧ l k w = ((v, Some e), s'.2) ∧
      err = errors_New "Using provided data acquistion routine")) ∧
  err ≠ errors_New "Value insertion into cache failed".
Proof.
  unfold FastRateLookup, Get.
  destruct (LRUCache.cache c !! k) as [e|] eqn:Hk.
  - destruct (Value c e); cbn [mbind result_bind]; [|discriminate].
    destruct (deref _ e); cbn [mbind result_bind]; discriminate.
  - cbn [mbind result_bind]. destruct loader as [l|].
    + destruct (l k w) as [[v [e|]] w1] eqn:Hload.
      * intros H. injection H as <- <- <-. simpl.
        split; [done|]. split; [done|]. split; [|discriminate].
        right. by exists l, v, e.
      * destruct (Insert k v c) as [[? ?]|]; cbn [mbind result_bind]; discriminate.
    + intros H. injection H as <- <- <-. simpl.
      split; [done|]. split; [done|]. split; [by left|discriminate].
Qed.

Lemma FastRateLookup_error_cases_witness :
  FastRateLookup "z" (Some (counting_loader 0%float (Some (errors_New "down"))))
    (cache_ab, 0%nat)
    = Ok ((math_NaN, Some (errors_New "Using provided data acquistion routine")),
          (cache_ab, 1%nat)) ∧
  (cache_ab, 1%nat).1 = cache_ab ∧ LRUCache.cache cache_ab !! "z" = None ∧
  ((Some (counting_loader 0%float (Some (errors_New "down"))) = None ∧
    errors_New "Using provided data acquistion routine" = errors_New "Key not found" ∧
    (cache_ab, 1%nat).2 = 0%nat) ∨
   (∃ l v e, Some (counting_loader 0%float (Some (errors_New "down"))) = Some l ∧
      l "z" 0%nat = ((v, Some e), (cache_ab, 1%nat).2) ∧
      errors_New "Using provided data acquistion routine"
        = errors_New "Using provided data acquistion routine")) ∧
  errors_New "Using provided data acquistion routine"
    ≠ errors_New "Value insertion into cache failed".
Proof.
  split; [reflexivity|].
  apply (FastRateLookup_error_cases "z"
           (Some (counting_loader 0%float (Some (errors_New "down"))))
           cache_ab 0%nat math_NaN
           (errors_New "Using provided data acquistion routine")
           (cache_ab, 1%nat)).
  reflexivity.
Defined.

(** X10.  The smallest cache: with capacity 1, whatever the cache held,
    after [Insert(k, v)] the pair [(k, v)] is its only entry and no other
    key is cached. *)
Theorem capacity_one_holds_last c k v :
  wf c → LRUCache.size c = 1 →
  ∃ c', Insert k v c = Ok (None, c') ∧ wf c' ∧
    entries c' = [mkCacheItem k v] ∧
    cached c' k = Some v ∧
    (∀ k', k' ≠ k → cached c' k' = None).
Proof.
  intros Hwf Hone. assert (Hl := wf_linked c Hwf).
  destruct (Insert_refines c k v Hwf) as (c' & Hins & Hwf' & Hsz & Hent).
  assert (Hl' := wf_linked c' Hwf').
  assert (Hshape : entries c' = [mkCacheItem k v]).
  { rewrite Hent, Hone. assert (Hcap := wf_cap c Hwf).
    unfold clist.Len in Hcap. rewrite <- (linked_length c Hl), Hone in Hcap.
    destruct (entries c) as [|x [|y es]]; [done| |simpl in Hcap; lia].
    unfold Spec.Insertion, Spec.find, Spec.without.
    destruct (decide (key x = k)) as [Hx|Hx].
    - rewrite filter_cons_True by done. simpl.
      by rewrite filter_cons_False by (intros Hn; by apply Hn).
    - by rewrite filter_cons_False by done. }
  exists c'. split; [done|]. split; [done|]. split; [done|]. split.
  - rewrite (linked_cached c' k Hl'), Hshape.
    by rewrite (find_cons_eq (mkCacheItem k v)).
  - intros k' Hne. rewrite (linked_cached c' k' Hl'), Hshape.
    by rewrite find_cons_ne by (simpl; congruence).
Qed.

Lemma capacity_one_holds_last_witness :
  let c := LRUCache.mk 1 [0%nat] {[ "a" := 0%nat ]} [mkCacheItem "a" 1%float] in
  wf c ∧ LRUCache.size c = 1 ∧
  ∃ c', Insert "b" 2%float c = Ok (None, c') ∧ wf c' ∧
    entries c' = [mkCacheItem "b" 2%float] ∧
    cached c' "b" = Some 2%float ∧
    (∀ k', k' ≠ "b" → cached c' k' = None).
Proof.
  intros c.
  assert (Hwf : wf c).
  { apply (wf_reached (W:=unit) 1 [OpInsert "a" 1%float] tt
             (LRUCache.mk 1 [] ∅ []) c tt); [lia|reflexivity|].
    vm_compute. reflexivity. }
  split; [exact Hwf|]. split; [reflexivity|].
  apply (capacity_one_holds_last c "b" 2%float Hwf). reflexivity.
Defined.

(** ** The demonstration program *)

Lemma Get_hit_Permutation c k e :
  linked c → LRUCache.cache c !! k = Some e →
  entries (with_list c (clist.MoveToFront e (LRUCache.list c))) ≡ₚ entries c.
Proof. intros _ _. unfold entries. simpl. by rewrite MoveToFront_Permutation. Qed.

Lemma cached_elem_of c k v :
  linked c → cached c k = Some v → k ∈ key <$> entries c.
Proof.
  intros Hl Hc. rewrite (linked_cached c k Hl) in Hc.
  destruct (Spec.find k (entries c)) as [it|] eqn:Hf; [|done].
  apply find_elem_of in Hf as [Hin <-]. by apply list_elem_of_fmap_2.
Qed.

Section demo_facts.
Variable strconv_Itoa : Z → string.
Variable strconv_ParseInt : string → Z.
Variable float64_of_int64 : Z → float64.
Variable rand_Intn : nat → Z → Z.

Local Abbreviation stl := (sales_tax_lookup strconv_ParseInt float64_of_int64).
Local Abbreviation tax k := ((stl k 0).1.1).
Local Abbreviation drawn j := (strconv_Itoa (rand_Intn j (CACHE_SIZE * 2))).

Lemma sales_tax_lookup_result k slept : stl k slept = ((tax k, None), slept + 10).
Proof. reflexivity. Qed.

(** One call of the loop body of [main]. *)
Lemma sales_step c k slept :
  wf c →
  ∃ r c' slept',
    FastRateLookup k (Some stl) (c, slept) = Ok ((r, None), (c', slept')) ∧
    wf c' ∧ LRUCache.size c' = LRUCache.size c ∧
    match cached c k with
    | Some v => r = v ∧ slept' = slept ∧ entries c' ≡ₚ entries c ∧
                (∀ k', cached c' k' = cached c k')
    | None => r = math_NaN ∧ slept' = slept + 10 ∧
              entries c' = Spec.Insertion (LRUCache.size c) k (tax k) (entries c) ∧
              Spec.find k (entries c) = None ∧
              (∀ k', cached c' k' = value <$> Spec.find k' (entries c'))
    end.
Proof.
  intros Hwf. assert (Hl := wf_linked c Hwf). unfold cached.
  destruct (LRUCache.cache c !! k) as [e|] eqn:Hk.
  - destruct (linked_lookup c k e Hl Hk) as (it & Hs & _).
    rewrite Hs.
    destruct (Get_refines c k Hwf) as (r & c' & Hget & Hwf' & Hsz & Hca & Hst & _).
    rewrite (Get_hit c k e it) in Hget by done. injection Hget as _ <-.
    eexists _, _, _. split; [by apply (FastRateLookup_hit c k e it)|].
    split; [done|]. split; [done|]. split; [done|]. split; [done|].
    split; [by apply (Get_hit_Permutation c k e)|done].
  - destruct (Insert_refines c k (tax k) Hwf) as (c' & Hins & Hwf' & Hsz & Hent).
    exists math_NaN, c', (slept + 10). split.
    + rewrite (FastRateLookup_miss_load c k stl slept (tax k) (slept + 10)) by done.
      by rewrite Hins.
    + split; [done|]. split; [done|]. split; [done|]. split; [done|].
      split; [done|]. split; [by apply linked_lookup_None|].
      intros k'. apply linked_cached. apply Hwf'.
Qed.

Lemma main_loop_inv n : ∀ i c slept,
  wf c → Z.of_nat i + Z.of_nat n ≤ LRUCache.size c →
  (length (entries c) ≤ i)%nat →
  slept = 10 * Z.of_nat (length (entries c)) →
  (∀ k, k ∈ key <$> entries c ↔ ∃ j, (j < i)%nat ∧ k = drawn j) →
  (∀ k, k ∈ key <$> entries c → cached c k = Some (tax k)) →
  ∃ c' slept',
    main_loop strconv_Itoa strconv_ParseInt float64_of_int64 rand_Intn n i (c, slept)
      = Ok (c', slept') ∧
    wf c' ∧ LRUCache.size c' = LRUCache.size c ∧
    (length (entries c') ≤ i + n)%nat ∧
    slept' = 10 * Z.of_nat (length (entries c')) ∧
    (∀ k, k ∈ key <$> entries c' ↔ ∃ j, (j < i + n)%nat ∧ k = drawn j) ∧
    (∀ k, k ∈ key <$> entries c' → cached c' k = Some (tax k)).
Proof.
  induction n as [|n IH]; intros i c slept Hwf Hroom Hlen Hslept Hkeys Hvals.
  - exists c, slept. rewrite Nat.add_0_r. by repeat (split; [done|]).
  - cbn [main_loop].
    assert (Hl := wf_linked c Hwf).
    destruct (sales_step c (drawn i) slept Hwf) as (r & c1 & slept1 & -> & Hwf1 & Hsz1 & Hcase).
    cbn [mbind result_bind].
    assert (Hl1 := wf_linked c1 Hwf1).
    assert (Hstep : (length (entries c1) ≤ S i)%nat ∧
              slept1 = 10 * Z.of_nat (length (entries c1)) ∧
              (∀ k, k ∈ key <$> entries c1 ↔ k = drawn i ∨ k ∈ key <$> entries c) ∧
              (∀ k, k ∈ key <$> entries c1 → cached c1 k = Some (tax k))).
    { destruct (cached c (drawn i)) as [v|] eqn:Hc.
      - destruct Hcase as (_ & -> & Hperm & Hsame).
        assert (Hin := cached_elem_of c (drawn i) v Hl Hc).
        split; [rewrite Hperm; lia|]. split; [by rewrite Hperm|]. split.
        + intros k. rewrite Hperm. split; [by right|].
          intros [->|Hk]; done.
        + intros k Hk. rewrite Hsame. apply Hvals. by rewrite <- Hperm.
      - destruct Hcase as (_ & -> & Hent & Hf & Hcached).
        assert (Hent1 : entries c1 = mkCacheItem (drawn i) (tax (drawn i)) :: entries c).
        { rewrite Hent. unfold Spec.Insertion. rewrite Hf.
          destruct (Z.ltb_spec (Z.of_nat (length (entries c))) (LRUCache.size c));
            [done|lia]. }
        split; [rewrite Hent1; simpl; lia|].
        split; [rewrite Hent1; simpl length; lia|]. split.
        + intros k. rewrite Hent1, fmap_cons, elem_of_cons. done.
        + intros k Hk. rewrite Hcached, Hent1.
          destruct (decide (k = drawn i)) as [->|Hne].
          * by rewrite (find_cons_eq (mkCacheItem (drawn i) (tax (drawn i)))).
          * rewrite find_cons_ne by (simpl; congruence).
            rewrite <- (linked_cached c k Hl). apply Hvals.
            rewrite Hent1, fmap_cons in Hk.
            apply elem_of_cons in Hk as [Hk|Hk]; [done|done]. }
    destruct Hstep as (Hlen1 & Hslept1 & Hkeys1 & Hvals1).
    destruct (IH (S i) c1 slept1) as (c' & slept' & Hrun & Hwf' & Hsz' & Hlen' & Hsl' & Hk' & Hv').
    + done.
    + rewrite Hsz1. lia.
    + done.
    + done.
    + intros k. rewrite Hkeys1, Hkeys. split.
      * intros [->|(j & Hj & ->)]; [exists i|exists j]; split; (lia || done).
      * intros (j & Hj & ->). destruct (decide (j = i)) as [->|Hne]; [by left|].
        right. exists j. split; [lia|done].
    + done.
    + exists c', slept'. split; [done|]. split; [done|]. split; [congruence|].
      split; [lia|]. split; [done|]. split; [|done].
      intros k. rewrite Hk'. by replace (S i + n)%nat with (i + S n)%nat by lia.
Qed.

(** X11.  With [sales_tax_lookup] as its loader, [FastRateLookup] returns a
    nil error on every well-formed cache: the routine never fails.  For a
    cached key it returns the cached value, sleeps no time and leaves every
    cached value as it is; for any other key it sleeps 10 ms once, the key
    leads afterwards to the rate the routine computed for it, and the
    float returned by the call itself is NaN. *)
Theorem FastRateLookup_sales_tax_lookup c k slept :
  wf c →
  ∃ r c' slept',
    FastRateLookup k (Some stl) (c, slept) = Ok ((r, None), (c', slept')) ∧
    wf c' ∧
    match cached c k with
    | Some v => r = v ∧ slept' = slept ∧ cached c' k = Some v
    | None => r = math_NaN ∧ slept' = slept + 10 ∧ cached c' k = Some (tax k)
    end.
Proof.
  intros Hwf.
  destruct (sales_step c k slept Hwf) as (r & c' & slept' & Hrun & Hwf' & _ & Hcase).
  exists r, c', slept'. split; [done|]. split; [done|].
  destruct (cached c k) as [v|] eqn:Hc.
  - destruct Hcase as (-> & -> & _ & Hsame). by rewrite Hsame.
  - destruct Hcase as (-> & -> & Hent & _ & Hcached).
    split; [done|]. split; [done|]. rewrite Hcached, Hent.
    destruct (Insertion_head (LRUCache.size c) k (tax k) (entries c)) as [tl ->].
    by rewrite (find_cons_eq (mkCacheItem k (tax k))).
Qed.

(** X12.  The program [main] runs to its end without a panic, whatever
    numbers [rand.Intn] draws.  The cache it ends with holds exactly the
    keys that were drawn, each once and each with the rate
    [sales_tax_lookup] computes for it; nothing was ever evicted (there are
    at most [ATTEMPTS] entries, fewer than [CACHE_SIZE]); and the time
    slept is 10 ms for each entry, that is, one slow lookup for each
    distinct key drawn. *)
Theorem main_one_slow_lookup_per_key :
  ∃ c slept,
    main strconv_Itoa strconv_ParseInt float64_of_int64 rand_Intn = Ok (c, slept) ∧
    wf c ∧ LRUCache.size c = CACHE_SIZE ∧
    NoDup (key <$> entries c) ∧
    (∀ k, k ∈ key <$> entries c ↔ ∃ j, (j < Z.to_nat ATTEMPTS)%nat ∧ k = drawn j) ∧
    (∀ k, k ∈ key <$> entries c → cached c k = Some (tax k)) ∧
    Z.of_nat (length (entries c)) ≤ ATTEMPTS ∧ ATTEMPTS < CACHE_SIZE ∧
    slept = 10 * Z.of_nat (length (entries c)).
Proof.
  unfold main.
  destruct (wf_New CACHE_SIZE) as [Hnew Hwf0]; [unfold CACHE_SIZE; lia|].
  rewrite Hnew. cbn [mbind result_bind].
  destruct (main_loop_inv (Z.to_nat ATTEMPTS) 0 (LRUCache.mk CACHE_SIZE [] ∅ []) 0)
    as (c & slept & Hrun & Hwf & Hsz & Hlen & Hslept & Hkeys & Hvals).
  - done.
  - simpl LRUCache.size. unfold ATTEMPTS, CACHE_SIZE. lia.
  - done.
  - done.
  - intros k. split; [inversion 1|]. intros (j & Hj & _). lia.
  - intros k Hk. inversion Hk.
  - exists c, slept. split; [done|]. split; [done|]. split; [done|].
    split; [apply linked_NoDup_keys, Hwf|]. split; [done|]. split; [done|].
    split; [|split; [unfold ATTEMPTS, CACHE_SIZE; lia|done]].
    unfold ATTEMPTS in *. lia.
Qed.
End demo_facts.

Lemma FastRateLookup_sales_tax_lookup_witness :
  let parse : string → Z := λ _, 3 in
  let conv : Z → float64 := λ _, 3%float in
  wf cache_ab ∧
  ∃ r c' slept',
    FastRateLookup "c" (Some (sales_tax_lookup parse conv)) (cache_ab, 0)
      = Ok ((r, None), (c', slept')) ∧
    wf c' ∧
    match cached cache_ab "c" with
    | Some v => r = v ∧ slept' = 0 ∧ cached c' "c" = Some v
    | None => r = math_NaN ∧ slept' = 0 + 10 ∧
              cached c' "c" = Some (sales_tax_lookup parse conv "c" 0).1.1
    end.
Proof.
  intros parse conv. split; [apply wf_cache_ab|].
  apply (FastRateLookup_sales_tax_lookup parse conv cache_ab "c" 0).
  apply wf_cache_ab.
Defined.
